(** * Tic-tac-toe engine: board model, AI strategies, personality and
      game session, embedded from the Python sources
      (models.py, ai_strategy.py, ai_opponent.py, game_engine.py). *)

From Stdlib Require Import ZArith List String Ascii Bool Lia QArith Qround Setoid.
From Stdlib Require Import Orders OrdersTac.
Import ListNotations.

Open Scope string_scope.
Open Scope Z_scope.

(** ** Exceptions and the state-and-exception monad

    Python methods mutate the objects they are handed and may raise.  A raised
    exception does not roll anything back: the state at the raise is the state
    the caller observes.  [M S A] is a computation over a mutable state [S]
    that either returns an [A] or raises, and in both cases hands back the
    state it reached. *)

Inductive exn : Type :=
| InvalidMark         (* ValueError("Player mark must be 'X' or 'O'") *)
| InvalidDifficulty   (* ValueError("Invalid difficulty level: ...") *)
| GameNotInProgress   (* ValueError("Game is not in progress. ...") *)
| WrongTurn           (* ValueError("It's not the player's turn. ...") *)
| OutOfBounds         (* ValueError("Coordinates (x, y) out of bounds") *)
| CellOccupied        (* ValueError("Cell (x, y) is already occupied") *)
| NameError (name : string)   (* an unbound global name *)
| AttributeError      (* attribute access on None *)
| IndexError          (* random.choice on an empty sequence *)
| RecursionError.     (* the recursion budget of the model ran out *)

Inductive result (A : Type) : Type :=
| Ok (a : A)
| Raise (e : exn).
Arguments Ok {A} a.
Arguments Raise {A} e.

Definition M (S A : Type) : Type := S -> result A * S.

Definition ret {S A} (a : A) : M S A := fun s => (Ok a, s).
Definition raise {S A} (e : exn) : M S A := fun s => (Raise e, s).
Definition bind {S A B} (c : M S A) (k : A -> M S B) : M S B :=
  fun s => match c s with
           | (Ok a, s') => k a s'
           | (Raise e, s') => (Raise e, s')
           end.
Definition get {S} : M S S := fun s => (Ok s, s).
Definition put {S} (s : S) : M S unit := fun _ => (Ok tt, s).

Declare Scope monad_scope.
Delimit Scope monad_scope with monad.
Notation "x <- c ;; k" := (bind c (fun x => k))
  (at level 61, c at next level, right associativity) : monad_scope.
Notation "c ;; k" := (bind c (fun _ => k))
  (at level 61, right associativity) : monad_scope.
Open Scope monad_scope.

(** ** models.py: Move *)

Record Move : Type := mkMove { mx : Z; my : Z }.

(** [Move.__eq__]: same coordinates. *)
Definition Move_eqb (a b : Move) : bool := (mx a =? mx b) && (my a =? my b).

(** ** models.py: Board

    [Board.__init__] rejects every grid that is not 3x3, so a grid is three
    rows of three cells.  A cell is a Python string: [""] is the empty cell. *)

Definition Row : Type := (string * string * string)%type.
Definition Board : Type := (Row * Row * Row)%type.

Definition empty_row : Row := ("", "", "").
(** [Board()] : [[''] * 3 for _ in range(3)]. *)
Definition new_Board : Board := (empty_row, empty_row, empty_row).

Definition range3 : list Z := [0; 1; 2].

(** [row[y]] and [grid[x][y]] for indices in [range(3)]; every use below is
    behind the bounds check [0 <= x < 3 and 0 <= y < 3] or a [range(3)] loop. *)
Definition row_get (r : Row) (y : Z) : string :=
  let '(a, b, c) := r in
  if y =? 0 then a else if y =? 1 then b else c.

Definition row_set (r : Row) (y : Z) (v : string) : Row :=
  let '(a, b, c) := r in
  if y =? 0 then (v, b, c) else if y =? 1 then (a, v, c) else (a, b, v).

Definition grid_get (g : Board) (x y : Z) : string :=
  let '(r0, r1, r2) := g in
  row_get (if x =? 0 then r0 else if x =? 1 then r1 else r2) y.

Definition grid_set (g : Board) (x y : Z) (v : string) : Board :=
  let '(r0, r1, r2) := g in
  if x =? 0 then (row_set r0 y v, r1, r2)
  else if x =? 1 then (r0, row_set r1 y v, r2)
  else (r0, r1, row_set r2 y v).

(** [0 <= x < 3 and 0 <= y < 3] *)
Definition in_bounds (x y : Z) : bool :=
  ((0 <=? x) && (x <? 3)) && ((0 <=? y) && (y <? 3)).

Definition get_empty_cells (b : Board) : list Move :=
  flat_map (fun x =>
    flat_map (fun y =>
      if (grid_get b x y =? "")%string then [mkMove x y] else []) range3) range3.

Definition is_cell_empty (b : Board) (x y : Z) : result bool :=
  if negb (in_bounds x y) then Raise OutOfBounds
  else Ok (grid_get b x y =? "")%string.

Definition make_move (b : Board) (move : Move) (mark : string) : result Board :=
  if negb (in_bounds (mx move) (my move)) then Raise OutOfBounds
  else if negb (grid_get b (mx move) (my move) =? "")%string then Raise CellOccupied
  else Ok (grid_set b (mx move) (my move) mark).

Definition undo_move (b : Board) (move : Move) : result Board :=
  if negb (in_bounds (mx move) (my move)) then Raise OutOfBounds
  else Ok (grid_set b (mx move) (my move) "").

Definition check_win (b : Board) (mark : string) : bool :=
  existsb (fun x => forallb (fun y => (grid_get b x y =? mark)%string) range3) range3
  || existsb (fun col => forallb (fun row => (grid_get b row col =? mark)%string) range3)
       range3
  || forallb (fun i => (grid_get b i i =? mark)%string) range3
  || forallb (fun i => (grid_get b i (2 - i) =? mark)%string) range3.

Definition check_draw (b : Board) : bool :=
  forallb (fun x => forallb (fun y => negb (grid_get b x y =? "")%string) range3)
    range3.

Definition is_game_over (b : Board) : bool :=
  check_win b "X" || check_win b "O" || check_draw b.

(** The [random] module: one generator shared by every call site.  The
    source of randomness is an arbitrary sequence of draws; [rnd_pos] counts
    the draws consumed so far.  [random.random()] yields the next draw as a
    number in [0, 1) (floats are represented by exact rationals),
    [random.choice] picks the element at a drawn index below the length. *)
Record Rng : Type := mkRng {
  rnd_floats : nat -> Q;
  rnd_below : nat -> nat -> nat;
  rnd_pos : nat
}.

Definition rng_next (r : Rng) : Rng :=
  mkRng (rnd_floats r) (rnd_below r) (S (rnd_pos r)).

(** The objects an AI call works on: the board it was handed (the very
    object the engine owns, mutated in place during search) and the
    generator. *)
Record World : Type := mkWorld { w_board : Board; w_rng : Rng }.

Definition with_board (w : World) (b : Board) : World := mkWorld b (w_rng w).

Definition the_board : M World Board := fun w => (Ok (w_board w), w).

(** Lifts a board method that returns a new grid or raises to an in-place
    update of the shared board. *)
Definition update_board (f : Board -> result Board) : M World unit :=
  fun w => match f (w_board w) with
           | Ok b' => (Ok tt, with_board w b')
           | Raise e => (Raise e, w)
           end.

Definition Board_make_move (move : Move) (mark : string) : M World unit :=
  update_board (fun b => make_move b move mark).

Definition Board_undo_move (move : Move) : M World unit :=
  update_board (fun b => undo_move b move).

Definition random_random : M World Q :=
  fun w => (Ok (rnd_floats (w_rng w) (rnd_pos (w_rng w))),
            mkWorld (w_board w) (rng_next (w_rng w))).

Definition random_choice {A} (l : list A) : M World A :=
  fun w =>
    match l with
    | [] => (Raise IndexError, w)
    | a :: _ =>
        let i := (rnd_below (w_rng w) (rnd_pos (w_rng w)) (List.length l)
                  mod List.length l)%nat in
        (Ok (nth i l a), mkWorld (w_board w) (rng_next (w_rng w)))
    end.

(** [random.uniform(a, b)] is [a + (b - a) * random()]. *)
Definition random_uniform (a b : Q) : M World Q :=
  u <- random_random ;; ret (a + (b - a) * u)%Q.

(** * ai_strategy.py *)

(** The names bound at module level in ai_strategy.py: its two import
    statements ([import random], [from abc import ABC, abstractmethod]) and
    its four class statements.  A global name that is read without being in
    this list and without being a builtin raises [NameError]. *)
Definition ai_strategy_globals : list string :=
  ["random"; "ABC"; "abstractmethod";
   "AIStrategy"; "EasyAIStrategy"; "MediumAIStrategy"; "HardAIStrategy"].

Definition global_name {S} (globals : list string) (name : string) : M S unit :=
  if existsb (String.eqb name) globals then ret tt else raise (NameError name).

Definition lift_result {S A} (r : result A) : M S A :=
  match r with Ok a => ret a | Raise e => raise e end.

(** [float('-inf')], an int, or [float('inf')]. *)
Inductive score : Type := NegInf | Fin (z : Z) | PosInf.

Definition score_leb (a b : score) : bool :=
  match a, b with
  | NegInf, _ => true
  | _, PosInf => true
  | Fin x, Fin y => x <=? y
  | _, _ => false
  end.

Definition score_ltb (a b : score) : bool := negb (score_leb b a).

(** Python's [max(a, b)] keeps [a] unless [b > a]; [min(a, b)] keeps [a]
    unless [b < a]. *)
Definition score_max (a b : score) : score := if score_ltb a b then b else a.
Definition score_min (a b : score) : score := if score_ltb b a then b else a.

(** ['O' if mark == 'X' else 'X'] *)
Definition other_mark (mark : string) : string :=
  if (mark =? "X")%string then "O" else "X".

(** ** EasyAIStrategy *)
Definition Easy_find_best_move (mark : string) : M World (option Move) :=
  b <- the_board ;;
  let empty_cells := get_empty_cells b in
  match empty_cells with
  | [] => ret None
  | _ => m <- random_choice empty_cells ;; ret (Some m)
  end.

(** ** MediumAIStrategy *)
Fixpoint _find_winning_move_loop (mark : string) (cells : list Move)
  : M World (option Move) :=
  match cells with
  | [] => ret None
  | move :: rest =>
      Board_make_move move mark ;;
      b <- the_board ;;
      let is_win := check_win b mark in
      Board_undo_move move ;;
      if is_win then ret (Some move) else _find_winning_move_loop mark rest
  end.

Definition _find_winning_move (mark : string) : M World (option Move) :=
  b <- the_board ;;
  _find_winning_move_loop mark (get_empty_cells b).

Definition Medium_find_best_move (mark : string) : M World (option Move) :=
  let opponent_mark := other_mark mark in
  winning_move <- _find_winning_move mark ;;
  match winning_move with
  | Some m => ret (Some m)
  | None =>
      blocking_move <- _find_winning_move opponent_mark ;;
      match blocking_move with
      | Some m => ret (Some m)
      | None =>
          (* center = Move(1, 1) *)
          global_name ai_strategy_globals "Move" ;;
          let center := mkMove 1 1 in
          b <- the_board ;;
          is_empty <- lift_result (is_cell_empty b (mx center) (my center)) ;;
          if is_empty : bool then ret (Some center)
          else
            let empty_cells := get_empty_cells b in
            match empty_cells with
            | [] => ret None
            | _ => m <- random_choice empty_cells ;; ret (Some m)
            end
      end
  end.

(** ** HardAIStrategy *)

(** The body of the maximizing [for] loop of [_minimax]; [rec alpha beta]
    is the recursive call one ply deeper. *)
Fixpoint max_loop (rec : score -> score -> M World score) (ai_mark : string)
  (moves : list Move) (max_eval alpha beta : score) : M World score :=
  match moves with
  | [] => ret max_eval
  | move :: rest =>
      Board_make_move move ai_mark ;;
      eval <- rec alpha beta ;;
      Board_undo_move move ;;
      let max_eval := score_max max_eval eval in
      let alpha := score_max alpha eval in
      if score_leb beta alpha then ret max_eval   (* break *)
      else max_loop rec ai_mark rest max_eval alpha beta
  end.

(** The body of the minimizing [for] loop of [_minimax]. *)
Fixpoint min_loop (rec : score -> score -> M World score)
  (opponent_mark : string)
  (moves : list Move) (min_eval alpha beta : score) : M World score :=
  match moves with
  | [] => ret min_eval
  | move :: rest =>
      Board_make_move move opponent_mark ;;
      eval <- rec alpha beta ;;
      Board_undo_move move ;;
      let min_eval := score_min min_eval eval in
      let beta := score_min beta eval in
      if score_leb beta alpha then ret min_eval   (* break *)
      else min_loop rec opponent_mark rest min_eval alpha beta
  end.

(** [_minimax]; [fuel] bounds the depth of the Python call stack. *)
Fixpoint _minimax (fuel : nat) (depth : Z) (is_maximizing : bool)
  (ai_mark opponent_mark : string) (alpha beta : score) : M World score :=
  match fuel with
  | O => raise RecursionError
  | S fuel' =>
      b <- the_board ;;
      if check_win b ai_mark then ret (Fin (10 - depth))
      else if check_win b opponent_mark then ret (Fin (depth - 10))
      else if check_draw b then ret (Fin 0)
      else if is_maximizing then
        max_loop (_minimax fuel' (depth + 1) false ai_mark opponent_mark)
          ai_mark (get_empty_cells b) NegInf alpha beta
      else
        min_loop (_minimax fuel' (depth + 1) true ai_mark opponent_mark)
          opponent_mark (get_empty_cells b) PosInf alpha beta
  end.

(** Enough stack for every 3x3 board: each minimizing ply fills a cell. *)
Definition search_fuel : nat := 20.

(** The root [for] loop of [HardAIStrategy.find_best_move], carrying
    [best_score] and [best_move]. *)
Fixpoint Hard_root_loop (mark opponent_mark : string) (moves : list Move)
  (best_score : score) (best_move : option Move)
  : M World (score * option Move) :=
  match moves with
  | [] => ret (best_score, best_move)
  | move :: rest =>
      Board_make_move move mark ;;
      s <- _minimax search_fuel 0 false mark opponent_mark NegInf PosInf ;;
      Board_undo_move move ;;
      if score_ltb best_score s
      then Hard_root_loop mark opponent_mark rest s (Some move)
      else Hard_root_loop mark opponent_mark rest best_score best_move
  end.

Definition Hard_root (mark : string) : M World (score * option Move) :=
  let opponent_mark := other_mark mark in
  b <- the_board ;;
  Hard_root_loop mark opponent_mark (get_empty_cells b) NegInf None.

Definition Hard_find_best_move (mark : string) : M World (option Move) :=
  r <- Hard_root mark ;; ret (snd r).

(** The strategy classes behind the [AIStrategy] interface. *)
Inductive AIStrategy : Type := EasyAIStrategy | MediumAIStrategy | HardAIStrategy.

Definition find_best_move (s : AIStrategy) (mark : string)
  : M World (option Move) :=
  match s with
  | EasyAIStrategy => Easy_find_best_move mark
  | MediumAIStrategy => Medium_find_best_move mark
  | HardAIStrategy => Hard_find_best_move mark
  end.


(** ** Search without mutation

    [place b move mark] is the grid after [make_move] on an empty cell.  The
    functions below compute on grids passed by value; the theorems relate
    them to the in-place search above. *)
Definition place (b : Board) (move : Move) (mark : string) : Board :=
  grid_set b (mx move) (my move) mark.

(** The alpha-beta search of [_minimax], on grids passed by value. *)
Fixpoint ab_max_loop (rec : Move -> score -> score -> score)
  (moves : list Move) (max_eval alpha beta : score) : score :=
  match moves with
  | [] => max_eval
  | move :: rest =>
      let eval := rec move alpha beta in
      let max_eval := score_max max_eval eval in
      let alpha := score_max alpha eval in
      if score_leb beta alpha then max_eval
      else ab_max_loop rec rest max_eval alpha beta
  end.

Fixpoint ab_min_loop (rec : Move -> score -> score -> score)
  (moves : list Move) (min_eval alpha beta : score) : score :=
  match moves with
  | [] => min_eval
  | move :: rest =>
      let eval := rec move alpha beta in
      let min_eval := score_min min_eval eval in
      let beta := score_min beta eval in
      if score_leb beta alpha then min_eval
      else ab_min_loop rec rest min_eval alpha beta
  end.

Fixpoint alphabeta (fuel : nat) (b : Board) (depth : Z) (is_maximizing : bool)
  (ai_mark opponent_mark : string) (alpha beta : score) : score :=
  match fuel with
  | O => Fin 0
  | S fuel' =>
      if check_win b ai_mark then Fin (10 - depth)
      else if check_win b opponent_mark then Fin (depth - 10)
      else if check_draw b then Fin 0
      else if is_maximizing then
        ab_max_loop
          (fun m => alphabeta fuel' (place b m ai_mark) (depth + 1) false
                      ai_mark opponent_mark)
          (get_empty_cells b) NegInf alpha beta
      else
        ab_min_loop
          (fun m => alphabeta fuel' (place b m opponent_mark) (depth + 1) true
                      ai_mark opponent_mark)
          (get_empty_cells b) PosInf alpha beta
  end.

(** Exhaustive minimax, no pruning: the value of a position is its terminal
    score ([10 - depth] for an AI win, [depth - 10] for an opponent win, [0]
    for a full board), or else the greatest (AI to move) or the least
    (opponent to move) of the values of all positions one ply deeper. *)
Fixpoint exhaustive_minimax (fuel : nat) (b : Board) (depth : Z)
  (is_maximizing : bool) (ai_mark opponent_mark : string) : score :=
  match fuel with
  | O => Fin 0
  | S fuel' =>
      if check_win b ai_mark then Fin (10 - depth)
      else if check_win b opponent_mark then Fin (depth - 10)
      else if check_draw b then Fin 0
      else if is_maximizing then
        fold_left score_max
          (map (fun m => exhaustive_minimax fuel' (place b m ai_mark)
                           (depth + 1) false ai_mark opponent_mark)
               (get_empty_cells b)) NegInf
      else
        fold_left score_min
          (map (fun m => exhaustive_minimax fuel' (place b m opponent_mark)
                           (depth + 1) true ai_mark opponent_mark)
               (get_empty_cells b)) PosInf
  end.

(** One step of root selection: a move replaces the best so far only when
    its score is strictly greater. *)
Definition pick_better (best : score * option Move) (m : Move) (s : score)
  : score * option Move :=
  if score_ltb (fst best) s then (s, Some m) else best.

(** The root choice by exhaustive minimax: every empty cell in enumeration
    order, scored by the value of the position after the AI mark is placed
    there (opponent to move, depth 0); the first strictly greatest wins. *)
Definition exhaustive_root (b : Board) (mark : string) : score * option Move :=
  fold_left
    (fun best m =>
       pick_better best m
         (exhaustive_minimax search_fuel (place b m mark) 0 false
            mark (other_mark mark)))
    (get_empty_cells b) (NegInf, None).

(** The number of empty cells and the depth measure of a search node: a
    minimizing ply always fills a cell, a maximizing ply is followed by a
    minimizing one. *)
Definition ind_empty (c : string) : nat := if (c =? "")%string then 1 else 0.

Definition count_empty (b : Board) : nat := List.length (get_empty_cells b).

Definition search_measure (b : Board) (is_maximizing : bool) : nat :=
  2 * count_empty b + (if is_maximizing then 1 else 0).

(** The order on scores as propositions, and what a search with window
    [(alpha, beta)] guarantees about its result [g] relative to the exact
    value [v]: at or below [alpha] it is an upper bound of [v], at or above
    [beta] a lower bound, strictly inside the window it is [v]. *)
Definition sle (a b : score) : Prop := score_leb a b = true.
Definition slt (a b : score) : Prop := score_ltb a b = true.

Definition bounded_by (alpha beta v g : score) : Prop :=
  (sle g alpha -> sle v g) /\
  (sle beta g -> sle g v) /\
  (slt alpha g -> slt g beta -> g = v).

(** A score as a pair (infinity tag, integer), ordered lexicographically. *)
Definition tg (s : score) : Z :=
  match s with NegInf => -1 | Fin _ => 0 | PosInf => 1 end.
Definition vl (s : score) : Z :=
  match s with Fin z => z | _ => 0 end.

(** The score order packaged for the order decision procedure. *)
Module ScoreOrd <: EqLtLe.
Definition t := score.
Definition eq := @eq score.
Definition lt := slt.
Definition le := sle.
End ScoreOrd.

(** * ai_opponent.py *)

(** [str.lower()] on ASCII letters. *)
Definition ascii_lower (c : ascii) : ascii :=
  let n := nat_of_ascii c in
  if ((65 <=? n) && (n <=? 90))%nat then ascii_of_nat (n + 32) else c.

Fixpoint str_lower (s : string) : string :=
  match s with
  | EmptyString => EmptyString
  | String c s' => String (ascii_lower c) (str_lower s')
  end.

(** [AIStrategyFactory.create_strategy] *)
Definition create_strategy (difficulty : string) : result AIStrategy :=
  if (str_lower difficulty =? "easy")%string then Ok EasyAIStrategy
  else if (str_lower difficulty =? "medium")%string then Ok MediumAIStrategy
  else if (str_lower difficulty =? "hard")%string then Ok HardAIStrategy
  else Raise InvalidDifficulty.

(** Floats are represented by exact rationals.  Python's [max(a, b)] keeps
    [a] unless [b > a]; [min(a, b)] keeps [a] unless [b < a]. *)
Definition Qltb (a b : Q) : bool := negb (Qle_bool b a).
Definition py_max (a b : Q) : Q := if Qltb a b then b else a.
Definition py_min (a b : Q) : Q := if Qltb b a then b else a.

Record AIPersonality : Type := mkAIPersonality {
  randomness_factor : Q;
  move_preferences : list ((Z * Z) * Q)
}.

(** [AIPersonality.__init__] *)
Definition new_AIPersonality (randomness_factor : Q) : AIPersonality :=
  mkAIPersonality
    (py_max 0%Q (py_min 1%Q randomness_factor))
    [ ((0, 0), (6 # 5)%Q); ((0, 2), (6 # 5)%Q);   (* corners: 1.2 *)
      ((2, 0), (6 # 5)%Q); ((2, 2), (6 # 5)%Q);
      ((1, 1), (3 # 2)%Q);                          (* center: 1.5 *)
      ((0, 1), 1%Q); ((1, 0), 1%Q);                 (* edges: 1.0 *)
      ((1, 2), 1%Q); ((2, 1), 1%Q) ].

(** [dict.get(key, default)] *)
Fixpoint dict_get (d : list ((Z * Z) * Q)) (key : Z * Z) (default : Q) : Q :=
  match d with
  | [] => default
  | ((kx, ky), v) :: rest =>
      if (kx =? fst key) && (ky =? snd key) then v
      else dict_get rest key default
  end.

Definition should_make_suboptimal_move (p : AIPersonality) : M World bool :=
  u <- random_random ;; ret (Qltb u (randomness_factor p)).

(** [move != suggested_move]: [Move.__eq__] answers [False] for [None]. *)
Definition Move_ne (move : Move) (suggested : option Move) : bool :=
  match suggested with
  | Some s => negb (Move_eqb move s)
  | None => true
  end.

(** The cumulative walk of [adjust_move]: the first candidate whose running
    total [upto] reaches the draw [r]; [None] when the loop falls through. *)
Fixpoint weighted_walk (weighted_candidates : list (Move * Q)) (upto r : Q)
  : option Move :=
  match weighted_candidates with
  | [] => None
  | (move, weight) :: rest =>
      let upto := (upto + weight)%Q in
      if Qle_bool r upto then Some move else weighted_walk rest upto r
  end.

Definition weigh (p : AIPersonality) (candidates : list Move)
  : list (Move * Q) :=
  map (fun move => (move, dict_get (move_preferences p) (mx move, my move) 1%Q))
    candidates.

(** [sum(w for _, w in weighted_candidates)] *)
Definition total_weight (weighted_candidates : list (Move * Q)) : Q :=
  fold_left Qplus (map snd weighted_candidates) 0%Q.

Definition adjust_move (p : AIPersonality) (suggested_move : option Move)
  : M World (option Move) :=
  b <- the_board ;;
  let empty_cells := get_empty_cells b in
  if (List.length empty_cells <=? 1)%nat then ret suggested_move
  else
    let suboptimal_candidates :=
      filter (fun move => Move_ne move suggested_move) empty_cells in
    match suboptimal_candidates with
    | [] => ret suggested_move
    | _ =>
        let weighted_candidates := weigh p suboptimal_candidates in
        r <- random_uniform 0 (total_weight weighted_candidates) ;;
        match weighted_walk weighted_candidates 0 r with
        | Some move => ret (Some move)
        | None =>
            (* Fallback *)
            move <- random_choice suboptimal_candidates ;; ret (Some move)
        end
    end.

Record AIOpponent : Type := mkAIOpponent {
  difficulty_level : string;
  opp_player_mark : string;
  opp_ai_mark : string;
  strategy : AIStrategy;
  personality : AIPersonality
}.

(** [AIOpponent.__init__]: raises when the factory rejects the difficulty. *)
Definition new_AIOpponent (difficulty player_mark : string)
  : result AIOpponent :=
  match create_strategy difficulty with
  | Raise e => Raise e
  | Ok s =>
      Ok (mkAIOpponent difficulty player_mark (other_mark player_mark) s
            (new_AIPersonality (1 # 10)))
  end.

(** [AIOpponent.make_move] *)
Definition AIOpponent_make_move (o : AIOpponent) : M World (option Move) :=
  suggested_move <- find_best_move (strategy o) (opp_ai_mark o) ;;
  suboptimal <- should_make_suboptimal_move (personality o) ;;
  if suboptimal : bool then adjust_move (personality o) suggested_move
  else ret suggested_move.

(** [AIOpponent.set_difficulty]: the level is stored before the factory is
    asked, so a rejected difficulty leaves the new level with the old
    strategy. *)
Definition set_difficulty (difficulty : string) : M AIOpponent unit :=
  fun o =>
    let o1 := mkAIOpponent difficulty (opp_player_mark o) (opp_ai_mark o)
                (strategy o) (personality o) in
    match create_strategy difficulty with
    | Raise e => (Raise e, o1)
    | Ok s =>
        (Ok tt, mkAIOpponent difficulty (opp_player_mark o) (opp_ai_mark o) s
                  (personality o))
    end.

Definition set_personality (randomness_factor : Q) : M AIOpponent unit :=
  fun o =>
    (Ok tt, mkAIOpponent (difficulty_level o) (opp_player_mark o)
              (opp_ai_mark o) (strategy o)
              (new_AIPersonality randomness_factor)).

(** * game_engine.py *)

Inductive GameStatus : Type :=
  not_started | in_progress | player_win | ai_win | draw.

Definition GameStatus_eqb (a b : GameStatus) : bool :=
  match a, b with
  | not_started, not_started | in_progress, in_progress
  | player_win, player_win | ai_win, ai_win | draw, draw => true
  | _, _ => false
  end.

(** The attributes of a [GameEngine]; [None] is Python's [None]. *)
Record GameEngine : Type := mkGameEngine {
  board : option Board;
  current_player : option string;
  ai_opponent : option AIOpponent;
  game_status : GameStatus;
  player_mark : option string;
  ai_mark : option string
}.

(** [GameEngine.__init__] *)
Definition new_GameEngine : GameEngine :=
  mkGameEngine None None None not_started None None.

(** What an engine call can touch: the engine object (with the board and the
    opponent it owns) and the module-level generator. *)
Record Session : Type := mkSession { engine : GameEngine; rng : Rng }.

Definition set_board (b : option Board) (e : GameEngine) : GameEngine :=
  mkGameEngine b (current_player e) (ai_opponent e) (game_status e)
    (player_mark e) (ai_mark e).
Definition set_current_player (p : option string) (e : GameEngine)
  : GameEngine :=
  mkGameEngine (board e) p (ai_opponent e) (game_status e)
    (player_mark e) (ai_mark e).
Definition set_ai_opponent (o : option AIOpponent) (e : GameEngine)
  : GameEngine :=
  mkGameEngine (board e) (current_player e) o (game_status e)
    (player_mark e) (ai_mark e).
Definition set_game_status (g : GameStatus) (e : GameEngine) : GameEngine :=
  mkGameEngine (board e) (current_player e) (ai_opponent e) g
    (player_mark e) (ai_mark e).
Definition set_player_mark (m : option string) (e : GameEngine) : GameEngine :=
  mkGameEngine (board e) (current_player e) (ai_opponent e) (game_status e)
    m (ai_mark e).
Definition set_ai_mark (m : option string) (e : GameEngine) : GameEngine :=
  mkGameEngine (board e) (current_player e) (ai_opponent e) (game_status e)
    (player_mark e) m.

Definition self : M Session GameEngine := fun s => (Ok (engine s), s).
Definition assign (f : GameEngine -> GameEngine) : M Session unit :=
  fun s => (Ok tt, mkSession (f (engine s)) (rng s)).

(** Attribute access on a value that may be [None]. *)
Definition deref {S A} (v : option A) : M S A :=
  match v with Some a => ret a | None => raise AttributeError end.

(** Equality of two values that are a string or [None]. *)
Definition py_eqb (a b : option string) : bool :=
  match a, b with
  | Some x, Some y => (x =? y)%string
  | None, None => true
  | _, _ => false
  end.

(** Runs a call that receives [self.board] on the engine's own board object:
    whatever the call does to the board (and to the generator) is done to the
    engine's board, also when the call raises. *)
Definition on_own_board {A} (c : M World A) : M Session A :=
  fun s =>
    match board (engine s) with
    | None => (Raise AttributeError, s)
    | Some b =>
        let '(r, w) := c (mkWorld b (rng s)) in
        (r, mkSession (set_board (Some (w_board w)) (engine s)) (w_rng w))
    end.

Definition get_winning_line (b : Board) : option (list Move) :=
  let line (cells : list Move) : bool :=
    match cells with
    | c0 :: c1 :: c2 :: _ =>
        negb (grid_get b (mx c0) (my c0) =? "")%string
        && (grid_get b (mx c0) (my c0) =? grid_get b (mx c1) (my c1))%string
        && (grid_get b (mx c1) (my c1) =? grid_get b (mx c2) (my c2))%string
    | _ => false
    end in
  find line
    (map (fun row => [mkMove row 0; mkMove row 1; mkMove row 2]) range3
     ++ map (fun col => [mkMove 0 col; mkMove 1 col; mkMove 2 col]) range3
     ++ [[mkMove 0 0; mkMove 1 1; mkMove 2 2];
         [mkMove 0 2; mkMove 1 1; mkMove 2 0]]).

(** The dictionaries returned to the caller; a key a call does not set is
    [None]. *)
Record Snapshot : Type := mkSnapshot {
  snap_board : Board;
  snap_current_player : option string;
  snap_player_mark : option string;
  snap_ai_mark : option string;
  snap_game_status : GameStatus;
  snap_winning_line : option (list Move);
  snap_ai_move : option Move
}.

(** [GameEngine._update_game_status_after_move] *)
Definition _update_game_status_after_move (mark : string) : M Session unit :=
  e <- self ;;
  b <- deref (board e) ;;
  if check_win b mark then
    if py_eqb (Some mark) (player_mark e)
    then assign (set_game_status player_win)
    else assign (set_game_status ai_win)
  else if check_draw b then assign (set_game_status draw)
  else
    assign (set_current_player
              (Some (if py_eqb (current_player e) (Some "X")
                     then "O" else "X"))).

(** [GameEngine._process_ai_move] *)
Definition _process_ai_move : M Session (option Move) :=
  e <- self ;;
  if negb (GameStatus_eqb (game_status e) in_progress)
     || negb (py_eqb (current_player e) (ai_mark e))
  then ret None
  else
    o <- deref (ai_opponent e) ;;
    ai_move <- on_own_board (AIOpponent_make_move o) ;;
    match ai_move with
    | Some move =>
        mark <- deref (ai_mark e) ;;
        on_own_board (Board_make_move move mark) ;;
        _update_game_status_after_move mark ;;
        ret (Some move)
    | None => ret None
    end.

(** [GameEngine.start_new_game]; [pmark] is the argument [player_mark]. *)
Definition start_new_game (pmark difficulty : string) : M Session Snapshot :=
  if negb (existsb (String.eqb pmark) ["X"; "O"]) then raise InvalidMark
  else
    assign (set_board (Some new_Board)) ;;
    assign (set_player_mark (Some pmark)) ;;
    assign (set_ai_mark (Some (other_mark pmark))) ;;
    o <- lift_result (new_AIOpponent difficulty pmark) ;;
    assign (set_ai_opponent (Some o)) ;;
    assign (set_current_player (Some "X")) ;;
    assign (set_game_status in_progress) ;;
    e <- self ;;
    ai_move <- (if py_eqb (ai_mark e) (Some "X") then _process_ai_move
                else ret None) ;;
    e <- self ;;
    b <- deref (board e) ;;
    ret (mkSnapshot b (current_player e) (player_mark e) (ai_mark e)
           (game_status e) None ai_move).

(** [GameEngine.player_move].  The marks are read through [deref]: on an
    engine reached by calls, while a game is in progress, they are set. *)
Definition player_move (x y : Z) : M Session Snapshot :=
  e <- self ;;
  if negb (GameStatus_eqb (game_status e) in_progress)
  then raise GameNotInProgress
  else if negb (py_eqb (current_player e) (player_mark e)) then raise WrongTurn
  else
    let move := mkMove x y in
    mark <- deref (player_mark e) ;;
    (* a ValueError of make_move is raised again as "Invalid move: ..." *)
    on_own_board (Board_make_move move mark) ;;
    _update_game_status_after_move mark ;;
    e <- self ;;
    ai_move <- (if GameStatus_eqb (game_status e) in_progress
                then _process_ai_move else ret None) ;;
    e <- self ;;
    b <- deref (board e) ;;
    ret (mkSnapshot b (current_player e) None None (game_status e)
           (get_winning_line b) ai_move).

(** Runs a method of the opponent object the engine owns. *)
Definition on_opponent {A} (o : AIOpponent) (c : M AIOpponent A)
  : M Session A :=
  fun s =>
    let '(r, o') := c o in
    (r, mkSession (set_ai_opponent (Some o') (engine s)) (rng s)).

(** [GameEngine.change_difficulty] *)
Definition change_difficulty (difficulty : string) : M Session bool :=
  e <- self ;;
  match ai_opponent e with
  | Some o => on_opponent o (set_difficulty difficulty) ;; ret true
  | None => ret false
  end.

(** [GameEngine.set_ai_personality] *)
Definition set_ai_personality (randomness_factor : Q) : M Session bool :=
  e <- self ;;
  match ai_opponent e with
  | Some o => on_opponent o (set_personality randomness_factor) ;; ret true
  | None => ret false
  end.

(** * Games played with the Hard strategy

    How a game ends: a mark completed a line, the board filled up, the plies
    allowed ran out (or no move was offered), or a call raised. *)
Inductive Outcome : Type :=
| Won (mark : string)
| Drawn
| Unfinished
| Stopped (e : exn).

(** Both sides choose every move with [HardAIStrategy.find_best_move] on
    the one shared board; after each move the game ends as
    [_update_game_status_after_move] decides: a win of the mover, else a
    full board, else the other mark moves. *)
Fixpoint hard_vs_hard (plies : nat) (mark : string) : World -> Outcome :=
  fun w =>
  match plies with
  | O => Unfinished
  | S n =>
      match find_best_move HardAIStrategy mark w with
      | (Ok (Some move), w1) =>
          match Board_make_move move mark w1 with
          | (Ok _, w2) =>
              if check_win (w_board w2) mark then Won mark
              else if check_draw (w_board w2) then Drawn
              else hard_vs_hard n (other_mark mark) w2
          | (Raise e, _) => Stopped e
          end
      | (Ok None, _) => Unfinished
      | (Raise e, _) => Stopped e
      end
  end.

(** A generator whose every draw is zero. *)
Definition rng0 : Rng := mkRng (fun _ => 0%Q) (fun _ _ => 0%nat) 0.

(** The move [HardAIStrategy.find_best_move] returns on a board. *)
Definition hard_choice (b : Board) (mark : string) : option Move :=
  match fst (find_best_move HardAIStrategy mark (mkWorld b rng0)) with
  | Ok m => m
  | Raise _ => None
  end.

(** The mark [hard] chooses with [HardAIStrategy.find_best_move]; the other
    mark plays the moves of [opp_moves] in turn, whatever they are (a move
    the board rejects stops the game, as the engine rejects it). *)
Fixpoint hard_vs_any (plies : nat) (hard : string) (hard_to_move : bool)
  (opp_moves : list Move) : World -> Outcome :=
  fun w =>
  match plies with
  | O => Unfinished
  | S n =>
      if hard_to_move then
        match find_best_move HardAIStrategy hard w with
        | (Ok (Some move), w1) =>
            match Board_make_move move hard w1 with
            | (Ok _, w2) =>
                if check_win (w_board w2) hard then Won hard
                else if check_draw (w_board w2) then Drawn
                else hard_vs_any n hard false opp_moves w2
            | (Raise e, _) => Stopped e
            end
        | (Ok None, _) => Unfinished
        | (Raise e, _) => Stopped e
        end
      else
        match opp_moves with
        | [] => Unfinished
        | move :: rest =>
            match Board_make_move move (other_mark hard) w with
            | (Ok _, w2) =>
                if check_win (w_board w2) (other_mark hard)
                then Won (other_mark hard)
                else if check_draw (w_board w2) then Drawn
                else hard_vs_any n hard true rest w2
            | (Raise e, _) => Stopped e
            end
        end
  end.

(** Explores every reply of the other mark: [true] when no line of play lets
    the other mark win against the Hard strategy. *)
Fixpoint never_loses (plies : nat) (hard : string) (hard_to_move : bool)
  (b : Board) : bool :=
  match plies with
  | O => true
  | S n =>
      if hard_to_move then
        match hard_choice b hard with
        | None => true
        | Some move =>
            match make_move b move hard with
            | Raise _ => true
            | Ok b2 =>
                if check_win b2 hard then true
                else if check_draw b2 then true
                else never_loses n hard false b2
            end
        end
      else
        forallb (fun move =>
                   let b2 := place b move (other_mark hard) in
                   if check_win b2 (other_mark hard) then false
                   else if check_draw b2 then true
                   else never_loses n hard true b2)
          (get_empty_cells b)
  end.


(** Positions of a legal game from the empty board: X moves first, marks
    alternate, every move goes on an empty cell, and no move follows a win or
    a full board. *)
Fixpoint play_moves (moves : list Move) (mark : string) (b : Board)
  : option Board :=
  match moves with
  | [] => Some b
  | move :: rest =>
      if is_game_over b then None
      else match make_move b move mark with
           | Ok b' => play_moves rest (other_mark mark) b'
           | Raise _ => None
           end
  end.

Definition position_after (moves : list Move) : option Board :=
  play_moves moves "X" new_Board.

Definition side_to_move (moves : list Move) : string :=
  if Nat.even (List.length moves) then "X" else "O".

(** * The engine as seen from outside

    [update_engine mark b e] is the engine
    [_update_game_status_after_move(mark)] leaves when the board holds [b];
    [apply_move] is a mark placed on a cell followed by that update. *)
Definition update_engine (mark : string) (b : Board) (e : GameEngine)
  : GameEngine :=
  if check_win b mark then
    if py_eqb (Some mark) (player_mark e)
    then set_game_status player_win e
    else set_game_status ai_win e
  else if check_draw b then set_game_status draw e
  else set_current_player
         (Some (if py_eqb (current_player e) (Some "X") then "O" else "X")) e.

Definition apply_move (mark : string) (move : Move) (b : Board)
  (e : GameEngine) : GameEngine :=
  update_engine mark (place b move mark)
    (set_board (Some (place b move mark)) e).

(** One accepted move: in a game in progress the mark whose turn it is goes
    on an empty cell and the status is updated. *)
Inductive placement : GameEngine -> GameEngine -> Prop :=
| placement_of (e : GameEngine) (b : Board) (move : Move) (mark : string) :
    game_status e = in_progress ->
    board e = Some b ->
    current_player e = Some mark ->
    In move (get_empty_cells b) ->
    placement e (apply_move mark move b e).

Inductive placements : GameEngine -> GameEngine -> Prop :=
| placements_nil (e : GameEngine) : placements e e
| placements_cons (e1 e2 e3 : GameEngine) :
    placement e1 e2 -> placements e2 e3 -> placements e1 e3.

(** The calls a client may make on an engine, and the session each leaves
    behind, whether it returns or raises. *)
Inductive Call : Type :=
| Call_start_new_game (pmark difficulty : string)
| Call_player_move (x y : Z)
| Call_change_difficulty (difficulty : string)
| Call_set_ai_personality (randomness_factor : Q).

Definition run_call (c : Call) (s : Session) : Session :=
  match c with
  | Call_start_new_game pmark difficulty => snd (start_new_game pmark difficulty s)
  | Call_player_move x y => snd (player_move x y s)
  | Call_change_difficulty difficulty => snd (change_difficulty difficulty s)
  | Call_set_ai_personality q => snd (set_ai_personality q s)
  end.

Definition run_calls (calls : list Call) (s : Session) : Session :=
  fold_left (fun s c => run_call c s) calls s.

(** The game statuses that end a game. *)
Definition terminal (g : GameStatus) : bool :=
  match g with
  | player_win | ai_win | draw => true
  | not_started | in_progress => false
  end.

(** A computation on the shared objects that hands the board back as it
    received it. *)
Definition board_frame {A} (c : M World A) : Prop :=
  forall w, w_board (snd (c w)) = w_board w.

(** What holds of the engine between calls.  No board shows a line of X and
    a line of O.  The marks are unset, or the player has X or O and the
    opponent the other one.  While a game is in progress it can be played
    on: the board is not over, there is an opponent, and X or O is to
    move. *)
Definition no_double_win (b : Board) : Prop :=
  check_win b "X" && check_win b "O" = false.

Definition marks_set (e : GameEngine) : Prop :=
  (player_mark e = None /\ ai_mark e = None)
  \/ exists pm, (pm = "X" \/ pm = "O")
                /\ player_mark e = Some pm
                /\ ai_mark e = Some (other_mark pm).

Definition playable (e : GameEngine) : Prop :=
  exists b o,
    board e = Some b /\ is_game_over b = false
    /\ ai_opponent e = Some o
    /\ (current_player e = Some "X" \/ current_player e = Some "O").

Definition consistent (e : GameEngine) : Prop :=
  (forall b, board e = Some b -> no_double_win b)
  /\ marks_set e
  /\ (game_status e = in_progress -> playable e /\ player_mark e <> None).

(** The engine [start_new_game] has set up when it is about to let the
    opponent open the game: a new board, X to move, the opponent [o]. *)
Definition started_engine (pmark : string) (o : AIOpponent) : GameEngine :=
  mkGameEngine (Some new_Board) (Some "X") (Some o) in_progress
    (Some pmark) (Some (other_mark pmark)).

(** The engines a client can bring about: a new engine, the engine after any
    call (returned or raised), and the engine after each accepted move (also
    the one between the player's move and the opponent's answer). *)
Inductive reachable : GameEngine -> Prop :=
| reachable_new : reachable new_GameEngine
| reachable_call (c : Call) (s : Session) :
    reachable (engine s) -> reachable (engine (run_call c s))
| reachable_placement (e e' : GameEngine) :
    reachable e -> placement e e' -> reachable e'.

(** The calls other than [set_ai_personality]. *)
Definition keeps_personality (c : Call) : bool :=
  match c with
  | Call_set_ai_personality _ => false
  | _ => true
  end.

(** The opponent of the engine perturbs its moves with factor 0.1. *)
Definition perturbs_one_in_ten (e : GameEngine) : Prop :=
  exists o, ai_opponent e = Some o
            /\ randomness_factor (personality o) = (1 # 10)%Q.

(** The running total of [adjust_move] after the first [n] candidates. *)
Definition cumulative_weight (weighted_candidates : list (Move * Q)) (n : nat)
  : Q :=
  total_weight (firstn n weighted_candidates).

(** The nine cells in the order [get_empty_cells] visits them. *)
Definition all_cells : list Move :=
  flat_map (fun x => map (fun y => mkMove x y) range3) range3.

(** How the engine stands after a move of [mark] gave board [b'], for a
    player holding [pm]: the game goes on with the other mark to move, or it
    is won by the mover, or drawn. *)
Definition outcome_of (e' : GameEngine) (b' : Board) (mark pm : string)
  : Prop :=
  board e' = Some b'
  /\ ((game_status e' = in_progress /\ is_game_over b' = false
       /\ current_player e' = Some (other_mark mark))
      \/ (game_status e' = (if (mark =? pm)%string then player_win else ai_win)
          /\ check_win b' mark = true /\ current_player e' = Some mark)
      \/ (game_status e' = draw /\ check_draw b' = true
          /\ check_win b' "X" = false /\ check_win b' "O" = false
          /\ current_player e' = Some mark)).

(** * models.py: the JSON form of Board

    A JSON object is a dictionary with string keys (here the list of its
    items); reading a key it does not hold raises [KeyError].  [Board.__init__] raises
    [ValueError("Grid must be 3x3")] on a grid of another shape. *)
Inductive json_exn : Type :=
| KeyError (key : string)
| GridNot3x3.

Inductive jresult (A : Type) : Type :=
| JOk (a : A)
| JRaise (e : json_exn).
Arguments JOk {A} a.
Arguments JRaise {A} e.

(** [data[key]] *)
Definition dict_item {V} (data : list (string * V)) (key : string)
  : jresult V :=
  match find (fun kv => (fst kv =? key)%string) data with
  | Some kv => JOk (snd kv)
  | None => JRaise (KeyError key)
  end.

(** The rows of a grid that passed the shape check of [Board.__init__]. *)
Definition row_of_list (l : list string) : Row :=
  match l with
  | [a; b; c] => (a, b, c)
  | _ => empty_row
  end.

Definition list_of_row (r : Row) : list string :=
  let '(a, b, c) := r in [a; b; c].

(** [Board.__init__(grid)]: [None] gives the empty board; a grid is copied
    when it has three rows of three cells and rejected otherwise. *)
Definition Board_init (grid : option (list (list string))) : jresult Board :=
  match grid with
  | None => JOk new_Board
  | Some g =>
      if negb (List.length g =? 3)%nat
         || existsb (fun row => negb (List.length row =? 3)%nat) g
      then JRaise GridNot3x3
      else
        match g with
        | [r0; r1; r2] => JOk (row_of_list r0, row_of_list r1, row_of_list r2)
        | _ => JRaise GridNot3x3
        end
  end.

(** [board.grid] as the list of lists it is. *)
Definition Board_grid (b : Board) : list (list string) :=
  let '(r0, r1, r2) := b in [list_of_row r0; list_of_row r1; list_of_row r2].

(** [Board.to_json] and [Board.from_json]; the value under ['grid'] may be
    JSON [null]. *)
Definition Board_to_json (b : Board)
  : list (string * option (list (list string))) :=
  [("grid", Some (Board_grid b))].

Definition Board_from_json
  (data : list (string * option (list (list string)))) : jresult Board :=
  match dict_item data "grid" with
  | JRaise e => JRaise e
  | JOk g => Board_init g
  end.

(** Every opponent the engine holds perturbs with the factor of
    [AIOpponent.__init__]. *)
Definition default_randomness (e : GameEngine) : Prop :=
  forall o, ai_opponent e = Some o ->
            randomness_factor (personality o) = (1 # 10)%Q.

(** * Board lemmas *)

Lemma in_bounds_cases x y :
  in_bounds x y = true ->
  (x = 0 \/ x = 1 \/ x = 2) /\ (y = 0 \/ y = 1 \/ y = 2).
Proof.
  unfold in_bounds. rewrite !andb_true_iff, !Z.leb_le, !Z.ltb_lt. lia.
Qed.

Ltac board_cases b :=
  destruct b as [[[[? ?] ?] [[? ?] ?]] [[? ?] ?]].

Ltac bounds_cases H :=
  apply in_bounds_cases in H;
  destruct H as [[? | [? | ?]] [? | [? | ?]]]; subst.

Lemma grid_set_get_same b x y v :
  in_bounds x y = true -> grid_get (grid_set b x y v) x y = v.
Proof.
  intros H. board_cases b. bounds_cases H; reflexivity.
Qed.

Lemma grid_set_set b x y v v' :
  in_bounds x y = true ->
  grid_set (grid_set b x y v) x y v' = grid_set b x y v'.
Proof.
  intros H. board_cases b. bounds_cases H; reflexivity.
Qed.

Lemma grid_set_same b x y :
  in_bounds x y = true -> grid_set b x y (grid_get b x y) = b.
Proof.
  intros H. board_cases b. bounds_cases H; reflexivity.
Qed.

Lemma undo_after_make b move mark b' :
  make_move b move mark = Ok b' -> undo_move b' move = Ok b.
Proof.
  unfold make_move, undo_move.
  destruct (in_bounds (mx move) (my move)) eqn:Hb; simpl; [|discriminate].
  destruct (grid_get b (mx move) (my move) =? "")%string eqn:He; simpl; [|discriminate].
  intros H; injection H as <-.
  rewrite grid_set_set by assumption.
  apply String.eqb_eq in He. rewrite <- He.
  now rewrite grid_set_same.
Qed.

Lemma make_move_ok b move mark :
  in_bounds (mx move) (my move) = true ->
  grid_get b (mx move) (my move) = "" ->
  make_move b move mark = Ok (grid_set b (mx move) (my move) mark).
Proof.
  intros Hb He. unfold make_move. rewrite Hb, He. reflexivity.
Qed.

(** C8. On every board, for every mark and every in-bounds empty cell,
    [make_move(move, mark)] followed by [undo_move(move)] raises nothing and
    leaves the board object exactly as it was: every cell has its prior
    value (and the generator is untouched). *)
Theorem make_move_undo_move_roundtrip (w : World) (move : Move) (mark : string) :
  in_bounds (mx move) (my move) = true ->
  grid_get (w_board w) (mx move) (my move) = "" ->
  (Board_make_move move mark ;; Board_undo_move move) w = (Ok tt, w)
  /\ forall x y, grid_get (w_board (snd ((Board_make_move move mark ;;
                                          Board_undo_move move) w))) x y
                 = grid_get (w_board w) x y.
Proof.
  intros Hb He.
  assert (E : (Board_make_move move mark ;; Board_undo_move move) w = (Ok tt, w)).
  { unfold bind, Board_make_move, Board_undo_move, update_board.
    rewrite (make_move_ok _ _ mark Hb He). simpl.
    rewrite (undo_after_make _ _ _ _ (make_move_ok _ _ mark Hb He)).
    destruct w; reflexivity. }
  split; [exact E | now rewrite E].
Qed.

Lemma make_move_undo_move_roundtrip_witness :
  (Board_make_move (mkMove 1 2) "X" ;; Board_undo_move (mkMove 1 2))
    (mkWorld (("X", "O", ""), ("", "O", ""), ("", "", "X"))
             (mkRng (fun _ => 0%Q) (fun _ _ => 0%nat) 0))
  = (Ok tt, mkWorld (("X", "O", ""), ("", "O", ""), ("", "", "X"))
                    (mkRng (fun _ => 0%Q) (fun _ _ => 0%nat) 0)).
Proof.
  apply (make_move_undo_move_roundtrip
           (mkWorld (("X", "O", ""), ("", "O", ""), ("", "", "X"))
                    (mkRng (fun _ => 0%Q) (fun _ _ => 0%nat) 0))
           (mkMove 1 2) "X"); reflexivity.
Defined.


(** ** Empty cells *)

Lemma In_get_empty_cells b m :
  In m (get_empty_cells b) <->
  in_bounds (mx m) (my m) = true /\ grid_get b (mx m) (my m) = "".
Proof.
  unfold get_empty_cells. rewrite in_flat_map. split.
  - intros (x & Hx & Hm). rewrite in_flat_map in Hm.
    destruct Hm as (y & Hy & Hm).
    destruct (grid_get b x y =? "")%string eqn:E; [|destruct Hm].
    destruct Hm as [<-|[]]. simpl. apply String.eqb_eq in E.
    split; [|exact E].
    unfold range3 in *. simpl in Hx, Hy.
    destruct Hx as [<-|[<-|[<-|[]]]]; destruct Hy as [<-|[<-|[<-|[]]]];
      reflexivity.
  - intros [Hb He]. destruct m as [x y]; simpl in Hb, He.
    exists x. split.
    + apply in_bounds_cases in Hb. unfold range3. simpl. intuition.
    + apply in_flat_map. exists y. split.
      * apply in_bounds_cases in Hb. unfold range3. simpl. intuition.
      * rewrite He. simpl. now left.
Qed.

Lemma length_if_singleton (c : bool) (m : Move) :
  List.length (if c then [m] else []) = if c then 1%nat else 0%nat.
Proof. now destruct c. Qed.

Lemma count_empty_cells b :
  count_empty b =
  (let '((c00, c01, c02), (c10, c11, c12), (c20, c21, c22)) := b in
   ind_empty c00 + ind_empty c01 + ind_empty c02 +
   ind_empty c10 + ind_empty c11 + ind_empty c12 +
   ind_empty c20 + ind_empty c21 + ind_empty c22)%nat.
Proof.
  board_cases b. unfold count_empty, get_empty_cells, ind_empty. simpl.
  rewrite !length_app, !length_if_singleton. simpl. lia.
Qed.

Lemma count_empty_le_9 b : (count_empty b <= 9)%nat.
Proof.
  rewrite count_empty_cells. board_cases b. unfold ind_empty.
  repeat match goal with |- context [if ?c then _ else _] => destruct c end;
    lia.
Qed.

Lemma count_empty_place b m mark :
  In m (get_empty_cells b) ->
  (count_empty (place b m mark) <= count_empty b)%nat /\
  (mark <> "" -> (count_empty (place b m mark) < count_empty b)%nat).
Proof.
  intros Hin. apply In_get_empty_cells in Hin. destruct Hin as [Hb He].
  rewrite !count_empty_cells. unfold place.
  destruct m as [x y]; simpl in *. board_cases b.
  assert (Hm : (ind_empty mark <= 1)%nat /\
               (mark <> "" -> ind_empty mark = 0%nat)).
  { unfold ind_empty. destruct (mark =? "")%string eqn:E.
    - apply String.eqb_eq in E. split; [lia | congruence].
    - split; [lia | reflexivity]. }
  destruct Hm as [Hm1 Hm2].
  bounds_cases Hb; simpl in He; subst; simpl;
    (split; [|intros Hne; specialize (Hm2 Hne)]);
    change (ind_empty "") with 1%nat; lia.
Qed.

(** ** Running monadic code *)

Lemma bind_ok {S A B} (c : M S A) (k : A -> M S B) s a s' :
  c s = (Ok a, s') -> bind c k s = k a s'.
Proof. intros H. unfold bind. now rewrite H. Qed.

Lemma bind_raise {S A B} (c : M S A) (k : A -> M S B) s e s' :
  c s = (Raise e, s') -> bind c k s = (Raise e, s').
Proof. intros H. unfold bind. now rewrite H. Qed.

Lemma with_board_same w : with_board w (w_board w) = w.
Proof. now destruct w. Qed.

Lemma Board_make_move_empty w m mark :
  In m (get_empty_cells (w_board w)) ->
  Board_make_move m mark w = (Ok tt, with_board w (place (w_board w) m mark)).
Proof.
  intros Hin. apply In_get_empty_cells in Hin. destruct Hin as [Hb He].
  unfold Board_make_move, update_board.
  now rewrite (make_move_ok _ _ mark Hb He).
Qed.

Lemma Board_undo_move_placed w m mark :
  In m (get_empty_cells (w_board w)) ->
  Board_undo_move m (with_board w (place (w_board w) m mark)) = (Ok tt, w).
Proof.
  intros Hin. apply In_get_empty_cells in Hin. destruct Hin as [Hb He].
  unfold Board_undo_move, update_board, with_board, place. cbn [w_board w_rng].
  rewrite (undo_after_make _ _ _ _ (make_move_ok _ _ mark Hb He)).
  now destruct w.
Qed.

(** ** The in-place search restores the board

    Each loop of the search places a mark, recurses and clears the cell
    again.  When the recursive call returns with the board it was given, so
    does the loop, and its value is that of the by-value loop. *)

Section LoopFrames.
Variable rec : score -> score -> M World score.
Variable prec : Move -> score -> score -> score.
Variable mark : string.
Variable w : World.
Hypothesis rec_frame : forall m a b,
  In m (get_empty_cells (w_board w)) ->
  rec a b (with_board w (place (w_board w) m mark))
  = (Ok (prec m a b), with_board w (place (w_board w) m mark)).

Lemma max_loop_frame moves :
  incl moves (get_empty_cells (w_board w)) ->
  forall max_eval alpha beta,
    max_loop rec mark moves max_eval alpha beta w
    = (Ok (ab_max_loop prec moves max_eval alpha beta), w).
Proof.
  induction moves as [|m rest IH]; intros Hincl max_eval alpha beta.
  - reflexivity.
  - assert (Hm : In m (get_empty_cells (w_board w)))
      by (apply Hincl; now left).
    assert (Hrest : incl rest (get_empty_cells (w_board w)))
      by (intros x Hx; apply Hincl; now right).
    cbn [max_loop ab_max_loop].
    rewrite (bind_ok _ _ _ _ _ (Board_make_move_empty w m mark Hm)).
    rewrite (bind_ok _ _ _ _ _ (rec_frame m alpha beta Hm)).
    rewrite (bind_ok _ _ _ _ _ (Board_undo_move_placed w m mark Hm)).
    destruct (score_leb beta (score_max alpha (prec m alpha beta)));
      [reflexivity | now apply IH].
Qed.

Lemma min_loop_frame moves :
  incl moves (get_empty_cells (w_board w)) ->
  forall min_eval alpha beta,
    min_loop rec mark moves min_eval alpha beta w
    = (Ok (ab_min_loop prec moves min_eval alpha beta), w).
Proof.
  induction moves as [|m rest IH]; intros Hincl min_eval alpha beta.
  - reflexivity.
  - assert (Hm : In m (get_empty_cells (w_board w)))
      by (apply Hincl; now left).
    assert (Hrest : incl rest (get_empty_cells (w_board w)))
      by (intros x Hx; apply Hincl; now right).
    cbn [min_loop ab_min_loop].
    rewrite (bind_ok _ _ _ _ _ (Board_make_move_empty w m mark Hm)).
    rewrite (bind_ok _ _ _ _ _ (rec_frame m alpha beta Hm)).
    rewrite (bind_ok _ _ _ _ _ (Board_undo_move_placed w m mark Hm)).
    destruct (score_leb (score_min beta (prec m alpha beta)) alpha);
      [reflexivity | now apply IH].
Qed.
End LoopFrames.

Lemma search_measure_max_child b m ai n :
  In m (get_empty_cells b) ->
  (search_measure b true < S n)%nat ->
  (search_measure (place b m ai) false < n)%nat.
Proof.
  intros Hin. unfold search_measure.
  destruct (count_empty_place b m ai Hin) as [Hle _]. lia.
Qed.

Lemma search_measure_min_child b m opp n :
  opp <> "" ->
  In m (get_empty_cells b) ->
  (search_measure b false < S n)%nat ->
  (search_measure (place b m opp) true < n)%nat.
Proof.
  intros Hne Hin. unfold search_measure.
  destruct (count_empty_place b m opp Hin) as [_ Hlt]. specialize (Hlt Hne).
  lia.
Qed.

(** With enough fuel for the position, [_minimax] raises nothing, leaves the
    shared board (and the generator) as it found them and returns the value
    of the by-value alpha-beta search. *)
Lemma _minimax_frame ai opp :
  opp <> "" ->
  forall fuel depth is_max alpha beta w,
    (search_measure (w_board w) is_max < fuel)%nat ->
    _minimax fuel depth is_max ai opp alpha beta w
    = (Ok (alphabeta fuel (w_board w) depth is_max ai opp alpha beta), w).
Proof.
  intros Hopp. induction fuel as [|n IH]; intros depth is_max alpha beta w Hm.
  - lia.
  - cbn [_minimax alphabeta]. unfold bind at 1, the_board at 1.
    destruct (check_win (w_board w) ai); [reflexivity|].
    destruct (check_win (w_board w) opp); [reflexivity|].
    destruct (check_draw (w_board w)); [reflexivity|].
    destruct is_max.
    + apply max_loop_frame; [|apply incl_refl].
      intros m a b Hin. rewrite IH; [reflexivity|].
      unfold with_board; cbn [w_board].
      exact (search_measure_max_child _ _ ai n Hin Hm).
    + apply min_loop_frame; [|apply incl_refl].
      intros m a b Hin. rewrite IH; [reflexivity|].
      unfold with_board; cbn [w_board].
      exact (search_measure_min_child _ _ opp n Hopp Hin Hm).
Qed.

(** ** The order on scores *)

Lemma score_leb_true a b :
  score_leb a b = true <-> (tg a < tg b \/ (tg a = tg b /\ vl a <= vl b)).
Proof.
  destruct a, b; simpl; rewrite ?Z.leb_le; split; intros; try lia;
    try reflexivity; try discriminate.
Qed.

Lemma score_leb_false a b :
  score_leb a b = false <-> (tg b < tg a \/ (tg a = tg b /\ vl b < vl a)).
Proof.
  destruct a, b; simpl; rewrite ?Z.leb_gt; split; intros; try lia;
    try reflexivity; try discriminate.
Qed.

Lemma score_eq_iff a b : a = b <-> (tg a = tg b /\ vl a = vl b).
Proof.
  split; [intros ->; now split|].
  destruct a, b; simpl; intros [? ?]; try lia; try reflexivity.
  now subst.
Qed.

Lemma tg_vl_range a : -1 <= tg a <= 1 /\ (tg a <> 0 -> vl a = 0).
Proof. destruct a; simpl; lia. Qed.

Lemma sle_iff a b :
  sle a b <-> (tg a < tg b \/ (tg a = tg b /\ vl a <= vl b)).
Proof. apply score_leb_true. Qed.

Lemma slt_iff a b :
  slt a b <-> (tg a < tg b \/ (tg a = tg b /\ vl a < vl b)).
Proof.
  unfold slt, score_ltb. rewrite negb_true_iff, score_leb_false.
  intuition lia.
Qed.

Lemma sle_total a b : sle a b \/ slt b a.
Proof.
  unfold sle, slt, score_ltb. destruct (score_leb a b); [now left | now right].
Qed.

Lemma score_leb_true_sle a b : score_leb a b = true -> sle a b.
Proof. trivial. Qed.

Lemma score_leb_false_slt a b : score_leb a b = false -> slt b a.
Proof. intros H. unfold slt, score_ltb. now rewrite H. Qed.

Module ScoreOrdFacts <: IsTotalOrder ScoreOrd.
Lemma eq_equiv : Equivalence ScoreOrd.eq.
Proof. unfold ScoreOrd.eq. split; congruence. Qed.

Lemma lt_strorder : StrictOrder ScoreOrd.lt.
Proof.
  split.
  - intros a. unfold complement, ScoreOrd.lt. rewrite slt_iff. lia.
  - intros a b c. unfold ScoreOrd.lt. rewrite !slt_iff. lia.
Qed.

Lemma lt_compat : Proper (ScoreOrd.eq ==> ScoreOrd.eq ==> iff) ScoreOrd.lt.
Proof. intros a b -> c d ->. reflexivity. Qed.

Lemma le_lteq x y : ScoreOrd.le x y <-> ScoreOrd.lt x y \/ ScoreOrd.eq x y.
Proof.
  unfold ScoreOrd.le, ScoreOrd.lt, ScoreOrd.eq.
  rewrite sle_iff, slt_iff, score_eq_iff.
  pose proof (tg_vl_range x). pose proof (tg_vl_range y). lia.
Qed.

Lemma lt_total x y : ScoreOrd.lt x y \/ ScoreOrd.eq x y \/ ScoreOrd.lt y x.
Proof.
  unfold ScoreOrd.lt, ScoreOrd.eq. rewrite !slt_iff, score_eq_iff.
  pose proof (tg_vl_range x). pose proof (tg_vl_range y). lia.
Qed.
End ScoreOrdFacts.

Module ScoreOrdTac := MakeOrderTac ScoreOrd ScoreOrdFacts.

Ltac score_order :=
  change slt with ScoreOrd.lt in *;
  change sle with ScoreOrd.le in *;
  ScoreOrdTac.order.

Lemma score_max_cases a b :
  (sle b a /\ score_max a b = a) \/ (slt a b /\ score_max a b = b).
Proof.
  unfold score_max, slt, sle, score_ltb.
  destruct (score_leb b a); [left | right]; now split.
Qed.

Lemma score_min_cases a b :
  (sle a b /\ score_min a b = a) \/ (slt b a /\ score_min a b = b).
Proof.
  unfold score_min, slt, sle, score_ltb.
  destruct (score_leb a b); [left | right]; now split.
Qed.

Ltac elim_max a b :=
  let H := fresh "Hm" in
  let E := fresh "Em" in
  destruct (score_max_cases a b) as [[H E]|[H E]]; rewrite E in *; clear E;
  try solve [exfalso; score_order].

Ltac elim_min a b :=
  let H := fresh "Hm" in
  let E := fresh "Em" in
  destruct (score_min_cases a b) as [[H E]|[H E]]; rewrite E in *; clear E;
  try solve [exfalso; score_order].

Ltac elim_extrema :=
  repeat match goal with
  | |- context [score_max ?a ?b] => elim_max a b
  | _ : context [score_max ?a ?b] |- _ => elim_max a b
  | |- context [score_min ?a ?b] => elim_min a b
  | _ : context [score_min ?a ?b] |- _ => elim_min a b
  end.

Ltac split_impl :=
  repeat match goal with
  | H : _ /\ _ |- _ => destruct H
  | H : sle ?a ?b -> _ |- _ =>
      let Hs := fresh "Hs" in
      destruct (sle_total a b) as [Hs|Hs]; [specialize (H Hs) | clear H];
      try solve [exfalso; score_order]
  | H : slt ?a ?b -> _ |- _ =>
      let Hs := fresh "Hs" in
      destruct (sle_total b a) as [Hs|Hs]; [clear H | specialize (H Hs)];
      try solve [exfalso; score_order]
  end.

(** Decides a goal about [sle], [slt], [=], [score_max] and [score_min]
    from the hypotheses in the context: case analysis on each extremum and
    each premise, then saturation in the total order. *)
Ltac score_auto :=
  unfold bounded_by in *; intros; repeat split; intros;
  elim_extrema; split_impl; score_order.

Lemma bounded_by_exact alpha beta v : bounded_by alpha beta v v.
Proof. score_auto. Qed.

Lemma bounded_by_full_window v g : bounded_by NegInf PosInf v g -> g = v.
Proof.
  intros (H1 & H2 & H3).
  destruct g.
  - specialize (H1 eq_refl). destruct v; simpl in *; try discriminate.
    reflexivity.
  - now apply H3.
  - specialize (H2 eq_refl). destruct v; simpl in *; try discriminate.
    reflexivity.
Qed.

Lemma fold_left_score_max_ge l : forall a, sle a (fold_left score_max l a).
Proof.
  induction l as [|x l IH]; intros a; simpl.
  - score_auto.
  - specialize (IH (score_max a x)). revert IH.
    generalize (fold_left score_max l (score_max a x)). score_auto.
Qed.

Lemma fold_left_score_min_le l : forall a, sle (fold_left score_min l a) a.
Proof.
  induction l as [|x l IH]; intros a; simpl.
  - score_auto.
  - specialize (IH (score_min a x)). revert IH.
    generalize (fold_left score_min l (score_min a x)). score_auto.
Qed.

(** ** Alpha-beta pruning does not change the value *)

Section LoopValues.
Variable vrec : Move -> score.
Variable grec : Move -> score -> score -> score.

Lemma ab_max_loop_sound alpha0 beta moves :
  (forall m a, In m moves -> slt a beta ->
               bounded_by a beta (vrec m) (grec m a beta)) ->
  forall max_eval tv alpha,
    alpha = score_max alpha0 max_eval ->
    slt alpha beta ->
    (sle max_eval alpha0 -> sle tv max_eval) ->
    (slt alpha0 max_eval -> max_eval = tv) ->
    bounded_by alpha0 beta
      (fold_left score_max (map vrec moves) tv)
      (ab_max_loop grec moves max_eval alpha beta).
Proof.
  induction moves as [|m rest IH]; intros Hrec max_eval tv alpha Ha Hab I1 I2.
  - clear Hrec. simpl. subst alpha. score_auto.
  - cbn [map fold_left ab_max_loop].
    assert (Hc : bounded_by alpha beta (vrec m) (grec m alpha beta))
      by (apply Hrec; [now left | exact Hab]).
    revert Hc. generalize (grec m alpha beta) as g.
    generalize (vrec m) as v. intros v g Hc.
    destruct (score_leb beta (score_max alpha g)) eqn:Hbrk.
    + pose proof (fold_left_score_max_ge (map vrec rest) (score_max tv v))
        as Hge.
      revert Hge.
      generalize (fold_left score_max (map vrec rest) (score_max tv v)) as V.
      intros V Hge. subst alpha. clear Hrec IH.
      apply score_leb_true_sle in Hbrk. score_auto.
    + apply IH.
      * intros m' a Hin. apply Hrec. now right.
      * subst alpha. clear Hrec IH. apply score_leb_false_slt in Hbrk. score_auto.
      * subst alpha. clear Hrec IH. apply score_leb_false_slt in Hbrk. score_auto.
      * subst alpha. clear Hrec IH. apply score_leb_false_slt in Hbrk. score_auto.
      * subst alpha. clear Hrec IH. apply score_leb_false_slt in Hbrk. score_auto.
Qed.

Lemma ab_min_loop_sound alpha beta0 moves :
  (forall m b, In m moves -> slt alpha b ->
               bounded_by alpha b (vrec m) (grec m alpha b)) ->
  forall min_eval tv beta,
    beta = score_min beta0 min_eval ->
    slt alpha beta ->
    (sle beta0 min_eval -> sle min_eval tv) ->
    (slt min_eval beta0 -> min_eval = tv) ->
    bounded_by alpha beta0
      (fold_left score_min (map vrec moves) tv)
      (ab_min_loop grec moves min_eval alpha beta).
Proof.
  induction moves as [|m rest IH]; intros Hrec min_eval tv beta Hb Hab I1 I2.
  - clear Hrec. simpl. subst beta. score_auto.
  - cbn [map fold_left ab_min_loop].
    assert (Hc : bounded_by alpha beta (vrec m) (grec m alpha beta))
      by (apply Hrec; [now left | exact Hab]).
    revert Hc. generalize (grec m alpha beta) as g.
    generalize (vrec m) as v. intros v g Hc.
    destruct (score_leb (score_min beta g) alpha) eqn:Hbrk.
    + pose proof (fold_left_score_min_le (map vrec rest) (score_min tv v))
        as Hge.
      revert Hge.
      generalize (fold_left score_min (map vrec rest) (score_min tv v)) as V.
      intros V Hge. subst beta. clear Hrec IH.
      apply score_leb_true_sle in Hbrk. score_auto.
    + apply IH.
      * intros m' a Hin. apply Hrec. now right.
      * subst beta. clear Hrec IH. apply score_leb_false_slt in Hbrk. score_auto.
      * subst beta. clear Hrec IH. apply score_leb_false_slt in Hbrk. score_auto.
      * subst beta. clear Hrec IH. apply score_leb_false_slt in Hbrk. score_auto.
      * subst beta. clear Hrec IH. apply score_leb_false_slt in Hbrk. score_auto.
Qed.
End LoopValues.

(** The alpha-beta value of a position, for any window with
    [alpha < beta], is related to its exhaustive minimax value as
    [bounded_by] states. *)
Lemma alphabeta_sound ai opp :
  forall fuel b depth is_max alpha beta,
    slt alpha beta ->
    bounded_by alpha beta
      (exhaustive_minimax fuel b depth is_max ai opp)
      (alphabeta fuel b depth is_max ai opp alpha beta).
Proof.
  induction fuel as [|n IH]; intros b depth is_max alpha beta Hab.
  - apply bounded_by_exact.
  - cbn [exhaustive_minimax alphabeta].
    destruct (check_win b ai); [apply bounded_by_exact|].
    destruct (check_win b opp); [apply bounded_by_exact|].
    destruct (check_draw b); [apply bounded_by_exact|].
    destruct is_max.
    + apply (ab_max_loop_sound
               (fun m => exhaustive_minimax n (place b m ai) (depth + 1) false
                           ai opp)
               (fun m => alphabeta n (place b m ai) (depth + 1) false ai opp)).
      * intros m a _ Ha. now apply IH.
      * reflexivity.
      * exact Hab.
      * intros _. reflexivity.
      * intros H. exfalso. clear - H. destruct alpha; discriminate.
    + apply (ab_min_loop_sound
               (fun m => exhaustive_minimax n (place b m opp) (depth + 1) true
                           ai opp)
               (fun m => alphabeta n (place b m opp) (depth + 1) true ai opp)).
      * intros m a _ Ha. now apply IH.
      * now destruct beta.
      * exact Hab.
      * intros _. reflexivity.
      * intros H. exfalso. clear - H. destruct beta; discriminate.
Qed.

Lemma alphabeta_full_window ai opp fuel b depth is_max :
  alphabeta fuel b depth is_max ai opp NegInf PosInf
  = exhaustive_minimax fuel b depth is_max ai opp.
Proof.
  apply bounded_by_full_window, alphabeta_sound. reflexivity.
Qed.

Lemma other_mark_nonempty mark : other_mark mark <> "".
Proof. unfold other_mark. destruct (mark =? "X")%string; discriminate. Qed.

(** The root loop of the in-place search returns what the by-value
    selection over exhaustive minimax scores returns, and restores the
    board. *)
Lemma Hard_root_loop_exhaustive mark w moves :
  incl moves (get_empty_cells (w_board w)) ->
  forall best_score best_move,
    Hard_root_loop mark (other_mark mark) moves best_score best_move w
    = (Ok (fold_left
             (fun best m =>
                pick_better best m
                  (exhaustive_minimax search_fuel (place (w_board w) m mark) 0
                     false mark (other_mark mark)))
             moves (best_score, best_move)), w).
Proof.
  induction moves as [|m rest IH]; intros Hincl best_score best_move.
  - reflexivity.
  - assert (Hm : In m (get_empty_cells (w_board w)))
      by (apply Hincl; now left).
    assert (Hrest : incl rest (get_empty_cells (w_board w)))
      by (intros x Hx; apply Hincl; now right).
    cbn [Hard_root_loop fold_left].
    assert (Hfuel : (search_measure
                       (w_board (with_board w (place (w_board w) m mark)))
                       false < search_fuel)%nat).
    { unfold with_board. cbn [w_board]. unfold search_measure, search_fuel.
      pose proof (count_empty_le_9 (place (w_board w) m mark)). lia. }
    rewrite (bind_ok _ _ _ _ _ (Board_make_move_empty w m mark Hm)).
    rewrite (bind_ok _ _ _ _ _
               (_minimax_frame mark (other_mark mark) (other_mark_nonempty mark)
                  search_fuel 0 false NegInf PosInf
                  (with_board w (place (w_board w) m mark)) Hfuel)).
    rewrite (bind_ok _ _ _ _ _ (Board_undo_move_placed w m mark Hm)).
    change (w_board (with_board w (place (w_board w) m mark)))
      with (place (w_board w) m mark).
    rewrite alphabeta_full_window.
    unfold pick_better at 2. cbn [fst].
    destruct (score_ltb best_score _); now apply IH.
Qed.

(** The recursion budget does not truncate the exhaustive search: any two
    budgets above the depth measure of a node give the same value. *)
Lemma exhaustive_minimax_fuel_irrelevant ai opp :
  opp <> "" ->
  forall n n' b depth is_max,
    (search_measure b is_max < n)%nat ->
    (search_measure b is_max < n')%nat ->
    exhaustive_minimax n b depth is_max ai opp
    = exhaustive_minimax n' b depth is_max ai opp.
Proof.
  intros Hopp. induction n as [|n IH]; intros n' b depth is_max Hn Hn'.
  - lia.
  - destruct n' as [|n']; [lia|].
    cbn [exhaustive_minimax].
    destruct (check_win b ai); [reflexivity|].
    destruct (check_win b opp); [reflexivity|].
    destruct (check_draw b); [reflexivity|].
    destruct is_max; f_equal; apply map_ext_in; intros m Hin; apply IH.
    + exact (search_measure_max_child _ _ ai n Hin Hn).
    + exact (search_measure_max_child _ _ ai n' Hin Hn').
    + exact (search_measure_min_child _ _ opp n Hopp Hin Hn).
    + exact (search_measure_min_child _ _ opp n' Hopp Hin Hn').
Qed.

(** The in-place alpha-beta search at the root agrees with the by-value
    exhaustive selection and restores the board. *)
Lemma Hard_search_exhaustive (w : World) (mark : string) :
  Hard_root mark w = (Ok (exhaustive_root (w_board w) mark), w)
  /\ find_best_move HardAIStrategy mark w
     = (Ok (snd (exhaustive_root (w_board w) mark)), w).
Proof.
  assert (E : Hard_root mark w = (Ok (exhaustive_root (w_board w) mark), w)).
  { unfold Hard_root, exhaustive_root.
    unfold bind at 1, the_board at 1.
    apply Hard_root_loop_exhaustive, incl_refl. }
  split; [exact E|].
  cbn [find_best_move]. unfold Hard_find_best_move.
  now rewrite (bind_ok _ _ _ _ _ E).
Qed.

(** C4. For every board and mark, the alpha-beta search of
    [HardAIStrategy.find_best_move] (which prunes a branch when
    [beta <= alpha]) raises nothing, leaves the board as it found it, and
    selects the same root move with the same root score as exhaustive minimax
    without pruning over the same depth-adjusted terminal scoring. *)
Theorem alphabeta_matches_exhaustive_minimax (w : World) (mark : string) :
  Hard_root mark w = (Ok (exhaustive_root (w_board w) mark), w)
  /\ find_best_move HardAIStrategy mark w
     = (Ok (snd (exhaustive_root (w_board w) mark)), w).
Proof. exact (Hard_search_exhaustive w mark). Qed.

(** ** The Hard strategy as a function of the board *)

Lemma Hard_find_best_move_pure mark w :
  find_best_move HardAIStrategy mark w
  = (Ok (hard_choice (w_board w) mark), w).
Proof.
  unfold hard_choice.
  rewrite (proj2 (Hard_search_exhaustive
                    (mkWorld (w_board w) rng0) mark)).
  rewrite (proj2 (Hard_search_exhaustive w mark)).
  reflexivity.
Qed.

Lemma Board_make_move_run move mark b r :
  Board_make_move move mark (mkWorld b r)
  = match make_move b move mark with
    | Ok b' => (Ok tt, mkWorld b' r)
    | Raise e => (Raise e, mkWorld b r)
    end.
Proof.
  unfold Board_make_move, update_board, with_board. cbn [w_board w_rng].
  now destruct (make_move b move mark).
Qed.

Lemma hard_vs_hard_rng plies :
  forall mark b r r',
    hard_vs_hard plies mark (mkWorld b r) = hard_vs_hard plies mark (mkWorld b r').
Proof.
  induction plies as [|n IH]; intros mark b r r'; [reflexivity|].
  cbn [hard_vs_hard]. rewrite !Hard_find_best_move_pure. cbn [w_board].
  destruct (hard_choice b mark) as [move|]; [|reflexivity].
  rewrite !Board_make_move_run.
  destruct (make_move b move mark) as [b'|e]; [|reflexivity].
  cbn [w_board].
  destruct (check_win b' mark); [reflexivity|].
  destruct (check_draw b'); [reflexivity|].
  apply IH.
Qed.

Lemma hard_vs_hard_from_empty r :
  hard_vs_hard 9 "X" (mkWorld new_Board r) = Drawn.
Proof.
  rewrite (hard_vs_hard_rng 9 "X" new_Board r rng0). vm_compute. reflexivity.
Qed.

Lemma other_mark_differs mark : other_mark mark <> mark.
Proof.
  unfold other_mark. destruct (mark =? "X")%string eqn:E.
  - apply String.eqb_eq in E. subst. discriminate.
  - apply String.eqb_neq in E. congruence.
Qed.

Lemma make_move_Ok_inv b move mark b' :
  make_move b move mark = Ok b' ->
  In move (get_empty_cells b) /\ b' = place b move mark.
Proof.
  unfold make_move.
  destruct (in_bounds (mx move) (my move)) eqn:Hb; cbn [negb]; [|discriminate].
  destruct (grid_get b (mx move) (my move) =? "")%string eqn:He; cbn [negb];
    [|discriminate].
  intros H. injection H as <-. split; [|reflexivity].
  apply In_get_empty_cells. split; [exact Hb|]. now apply String.eqb_eq.
Qed.

(** Soundness of the exhaustive check: when [never_loses] answers [true],
    no sequence of moves of the other mark wins against the Hard strategy. *)
Lemma never_loses_sound hard plies :
  forall hard_to_move b r opp_moves,
    never_loses plies hard hard_to_move b = true ->
    hard_vs_any plies hard hard_to_move opp_moves (mkWorld b r)
    <> Won (other_mark hard).
Proof.
  assert (Hne : Won hard <> Won (other_mark hard)).
  { intros H. injection H as H. symmetry in H.
    exact (other_mark_differs hard H). }
  induction plies as [|n IH]; intros htm b r opp_moves Hchk; [discriminate|].
  cbn [hard_vs_any never_loses] in *. destruct htm.
  - rewrite Hard_find_best_move_pure. cbn [w_board].
    destruct (hard_choice b hard) as [move|]; [|discriminate].
    rewrite Board_make_move_run.
    destruct (make_move b move hard) as [b'|e]; [|discriminate].
    cbn [w_board].
    destruct (check_win b' hard); [exact Hne|].
    destruct (check_draw b'); [discriminate|].
    now apply IH.
  - destruct opp_moves as [|move rest]; [discriminate|].
    rewrite Board_make_move_run.
    destruct (make_move b move (other_mark hard)) as [b'|e] eqn:Hmk;
      [|discriminate].
    cbn [w_board].
    apply make_move_Ok_inv in Hmk. destruct Hmk as [Hin ->].
    rewrite forallb_forall in Hchk. specialize (Hchk move Hin).
    cbn zeta in Hchk.
    destruct (check_win (place b move (other_mark hard)) (other_mark hard));
      [discriminate|].
    destruct (check_draw (place b move (other_mark hard))); [discriminate|].
    now apply IH.
Qed.


(** ** The Medium strategy *)

(** The probe loop of [_find_winning_move] places and clears a mark on each
    empty cell in turn: it raises nothing, restores the board and returns
    the first cell on which the mark completes a line. *)
Lemma _find_winning_move_loop_frame mark w cells :
  incl cells (get_empty_cells (w_board w)) ->
  _find_winning_move_loop mark cells w
  = (Ok (find (fun m => check_win (place (w_board w) m mark) mark) cells), w).
Proof.
  induction cells as [|m rest IH]; intros Hincl; [reflexivity|].
  assert (Hm : In m (get_empty_cells (w_board w))) by (apply Hincl; now left).
  assert (Hrest : incl rest (get_empty_cells (w_board w)))
    by (intros x Hx; apply Hincl; now right).
  cbn [_find_winning_move_loop find].
  rewrite (bind_ok _ _ _ _ _ (Board_make_move_empty w m mark Hm)).
  unfold bind at 1, the_board at 1. cbn [with_board w_board].
  fold (with_board w (place (w_board w) m mark)).
  rewrite (bind_ok _ _ _ _ _ (Board_undo_move_placed w m mark Hm)).
  destruct (check_win (place (w_board w) m mark) mark); [reflexivity|].
  now apply IH.
Qed.

Lemma _find_winning_move_frame mark w :
  _find_winning_move mark w
  = (Ok (find (fun m => check_win (place (w_board w) m mark) mark)
           (get_empty_cells (w_board w))), w).
Proof.
  unfold _find_winning_move. unfold bind at 1, the_board at 1.
  apply _find_winning_move_loop_frame, incl_refl.
Qed.

Lemma find_none_iff {A} (f : A -> bool) l :
  find f l = None <-> forall x, In x l -> f x = false.
Proof.
  split; [apply find_none|].
  induction l as [|a l IH]; intros H; [reflexivity|].
  cbn [find]. rewrite (H a (or_introl eq_refl)). apply IH.
  intros x Hx. apply H. now right.
Qed.

(** What [MediumAIStrategy.find_best_move] does on every board: a winning
    cell if there is one, else a blocking cell if there is one, else the
    unbound name [Move] stops it. *)
Lemma Medium_find_best_move_run mark w :
  find_best_move MediumAIStrategy mark w
  = (match find (fun m => check_win (place (w_board w) m mark) mark)
             (get_empty_cells (w_board w)) with
     | Some m => Ok (Some m)
     | None =>
         match find (fun m => check_win (place (w_board w) m (other_mark mark))
                                (other_mark mark))
                 (get_empty_cells (w_board w)) with
         | Some m => Ok (Some m)
         | None => Raise (NameError "Move")
         end
     end, w).
Proof.
  cbn [find_best_move]. unfold Medium_find_best_move.
  rewrite (bind_ok _ _ _ _ _ (_find_winning_move_frame mark w)).
  destruct (find _ _) as [m|]; [reflexivity|].
  rewrite (bind_ok _ _ _ _ _ (_find_winning_move_frame (other_mark mark) w)).
  destruct (find _ _) as [m|]; reflexivity.
Qed.

(** X11. On every board with an empty cell on which neither the AI mark nor
    the opponent mark has an immediate winning move,
    [MediumAIStrategy.find_best_move] returns no move: building the center
    move reads the global name [Move], which ai_strategy.py never binds, and
    the call raises [NameError] with the board as it found it. *)
Theorem Medium_center_fallback_raises (mark : string) (w : World) :
  get_empty_cells (w_board w) <> [] ->
  (forall m, In m (get_empty_cells (w_board w)) ->
             check_win (place (w_board w) m mark) mark = false) ->
  (forall m, In m (get_empty_cells (w_board w)) ->
             check_win (place (w_board w) m (other_mark mark)) (other_mark mark)
             = false) ->
  find_best_move MediumAIStrategy mark w = (Raise (NameError "Move"), w).
Proof.
  intros _ Hwin Hblock. rewrite Medium_find_best_move_run.
  apply find_none_iff in Hwin. apply find_none_iff in Hblock.
  now rewrite Hwin, Hblock.
Qed.

Lemma Medium_center_fallback_raises_witness :
  find_best_move MediumAIStrategy "X" (mkWorld new_Board rng0)
  = (Raise (NameError "Move"), mkWorld new_Board rng0).
Proof.
  apply (Medium_center_fallback_raises "X" (mkWorld new_Board rng0)).
  - discriminate.
  - intros m Hm. cbn in Hm.
    repeat (destruct Hm as [<-|Hm]; [reflexivity|]). destruct Hm.
  - intros m Hm. cbn in Hm.
    repeat (destruct Hm as [<-|Hm]; [reflexivity|]). destruct Hm.
Defined.
(** ** The opponent never changes the board it is shown *)

Lemma frame_ret {A} (a : A) : board_frame (ret a).
Proof. now intros w. Qed.

Lemma frame_raise {A} e : board_frame (@raise World A e).
Proof. now intros w. Qed.

Lemma frame_bind {A B} (c : M World A) (k : A -> M World B) :
  board_frame c -> (forall a, board_frame (k a)) -> board_frame (bind c k).
Proof.
  intros Hc Hk w. unfold bind. specialize (Hc w).
  destruct (c w) as [[a|e] w']; cbn [snd] in *; [|exact Hc].
  now rewrite Hk.
Qed.

Lemma frame_the_board : board_frame the_board.
Proof. now intros w. Qed.

Lemma frame_random_random : board_frame random_random.
Proof. now intros w. Qed.

Lemma frame_random_choice {A} (l : list A) : board_frame (random_choice l).
Proof. intros w. now destruct l. Qed.

Lemma frame_random_uniform a b : board_frame (random_uniform a b).
Proof.
  apply frame_bind; [apply frame_random_random | intros; apply frame_ret].
Qed.

Create HintDb frame.
#[local] Hint Resolve frame_ret frame_raise frame_the_board frame_random_random
  frame_random_choice frame_random_uniform : frame.

Ltac frame_step :=
  first [ apply frame_bind; [|intros ?] | solve [auto with frame] ].

Lemma frame_find_best_move strat mark : board_frame (find_best_move strat mark).
Proof.
  destruct strat.
  - cbn [find_best_move]. unfold Easy_find_best_move.
    apply frame_bind; [auto with frame|]. intros b.
    destruct (get_empty_cells b); [auto with frame|].
    apply frame_bind; [auto with frame|]. intros; auto with frame.
  - intros w. now rewrite Medium_find_best_move_run.
  - intros w. now rewrite Hard_find_best_move_pure.
Qed.

Lemma frame_adjust_move p suggested : board_frame (adjust_move p suggested).
Proof.
  unfold adjust_move. apply frame_bind; [auto with frame|]. intros b.
  destruct (_ <=? _)%nat; [auto with frame|].
  destruct (filter _ _) as [|c cs]; [auto with frame|].
  apply frame_bind; [auto with frame|]. intros r.
  destruct (weighted_walk _ _ _); [auto with frame|].
  apply frame_bind; [auto with frame|]. intros; auto with frame.
Qed.

Lemma frame_AIOpponent_make_move o : board_frame (AIOpponent_make_move o).
Proof.
  unfold AIOpponent_make_move.
  apply frame_bind; [apply frame_find_best_move|]. intros suggested.
  apply frame_bind.
  - unfold should_make_suboptimal_move.
    apply frame_bind; [auto with frame|]. intros; auto with frame.
  - intros [|]; [apply frame_adjust_move | auto with frame].
Qed.

(** ** A mark placed on an empty cell completes no line of another mark *)

Lemma grid_get_place b move mark x y :
  in_bounds (mx move) (my move) = true ->
  In x range3 -> In y range3 ->
  grid_get (place b move mark) x y
  = if Move_eqb (mkMove x y) move then mark else grid_get b x y.
Proof.
  intros Hb Hx Hy. destruct move as [i j].
  unfold place. cbn [mx my] in *. board_cases b.
  bounds_cases Hb;
    cbn in Hx, Hy;
    repeat (destruct Hx as [<-|Hx]; [|]); try contradiction;
    repeat (destruct Hy as [<-|Hy]; [|]); try contradiction;
    reflexivity.
Qed.
(** ** A mark placed on an empty cell completes no line of another mark *)

Lemma check_win_ext b b' mark :
  (forall x y, In x range3 -> In y range3 ->
     (grid_get b x y =? mark)%string = (grid_get b' x y =? mark)%string) ->
  check_win b mark = check_win b' mark.
Proof.
  intros H. unfold check_win. cbn [existsb forallb range3].
  change (2 - 0) with 2. change (2 - 1) with 1. change (2 - 2) with 0.
  rewrite !H by (cbn; tauto). reflexivity.
Qed.

Lemma check_win_place_other b move mark mark' :
  In move (get_empty_cells b) -> mark' <> mark -> mark' <> "" ->
  check_win (place b move mark) mark' = check_win b mark'.
Proof.
  intros Hin Hne Hne'. apply In_get_empty_cells in Hin. destruct Hin as [Hb He].
  apply check_win_ext. intros x y Hx Hy.
  rewrite (grid_get_place b move mark x y Hb Hx Hy).
  destruct (Move_eqb (mkMove x y) move) eqn:E; [|reflexivity].
  unfold Move_eqb in E. cbn [mx my] in E.
  apply andb_true_iff in E. destruct E as [Ex Ey].
  apply Z.eqb_eq in Ex, Ey. subst x y. rewrite He.
  transitivity false; [|symmetry]; apply String.eqb_neq; congruence.
Qed.

Lemma no_double_win_place b move mark :
  In move (get_empty_cells b) ->
  check_win b "X" = false -> check_win b "O" = false ->
  no_double_win (place b move mark)
  /\ (check_win (place b move mark) mark = false ->
      check_win (place b move mark) "X" = false
      /\ check_win (place b move mark) "O" = false).
Proof.
  intros Hin HX HO.
  assert (HX' : mark <> "X" -> check_win (place b move mark) "X" = false).
  { intros Hne. rewrite check_win_place_other; auto; discriminate. }
  assert (HO' : mark <> "O" -> check_win (place b move mark) "O" = false).
  { intros Hne. rewrite check_win_place_other; auto; discriminate. }
  unfold no_double_win.
  destruct (string_dec mark "X") as [->|HnX].
  - rewrite HO' by discriminate. split; [apply andb_false_r|]. tauto.
  - rewrite HX' by exact HnX. split; [reflexivity|].
    destruct (string_dec mark "O") as [->|HnO]; [tauto|].
    rewrite HO' by exact HnO. tauto.
Qed.
(** ** The engine *)

Lemma GameStatus_eqb_eq a b : GameStatus_eqb a b = true <-> a = b.
Proof. destruct a, b; cbn; split; congruence. Qed.

Lemma py_eqb_eq a b : py_eqb a b = true <-> a = b.
Proof.
  destruct a as [x|], b as [y|]; cbn; try (split; congruence).
  rewrite String.eqb_eq. split; congruence.
Qed.

Lemma bind_self {A} (k : GameEngine -> M Session A) s :
  bind self k s = k (engine s) s.
Proof. reflexivity. Qed.

Lemma bind_assign {A} f (k : unit -> M Session A) s :
  bind (assign f) k s = k tt (mkSession (f (engine s)) (rng s)).
Proof. reflexivity. Qed.

Lemma bind_ret {S A B} (a : A) (k : A -> M S B) s : bind (ret a) k s = k a s.
Proof. reflexivity. Qed.

Lemma session_eta s : mkSession (engine s) (rng s) = s.
Proof. now destruct s. Qed.

Lemma set_board_same e b : board e = Some b -> set_board (Some b) e = e.
Proof. destruct e; cbn. now intros ->. Qed.

(** [_update_game_status_after_move] on an engine that has a board. *)
Lemma _update_game_status_after_move_run mark s b :
  board (engine s) = Some b ->
  _update_game_status_after_move mark s
  = (Ok tt, mkSession (update_engine mark b (engine s)) (rng s)).
Proof.
  intros Hb. unfold _update_game_status_after_move, update_engine.
  rewrite bind_self, Hb. unfold deref. rewrite bind_ret.
  destruct (check_win b mark).
  - now destruct (py_eqb _ _).
  - now destruct (check_draw b).
Qed.

(** X21. Called with the mark that just moved, on a game in progress,
    [_update_game_status_after_move] leaves [current_player] unchanged, equal
    to that mark, whenever the status becomes terminal ([player_win],
    [ai_win] or [draw]); [current_player] changes only when the game remains
    [in_progress], and then to the other mark. *)
Theorem update_status_keeps_current_player_on_terminal
  (mark : string) (s : Session) (b : Board) :
  board (engine s) = Some b ->
  game_status (engine s) = in_progress ->
  current_player (engine s) = Some mark ->
  exists s',
    _update_game_status_after_move mark s = (Ok tt, s')
    /\ terminal (game_status (engine s')) = (check_win b mark || check_draw b)
    /\ (terminal (game_status (engine s')) = true ->
        current_player (engine s') = Some mark)
    /\ (current_player (engine s') <> Some mark ->
        game_status (engine s') = in_progress
        /\ current_player (engine s') = Some (other_mark mark))
    /\ (game_status (engine s') = in_progress ->
        current_player (engine s') = Some (other_mark mark)).
Proof.
  intros Hb Hst Hcur. eexists. split.
  - apply (_update_game_status_after_move_run mark s b Hb).
  - cbn [engine]. unfold update_engine. rewrite Hcur.
    change (py_eqb (Some mark) (Some "X")) with (mark =? "X")%string.
    fold (other_mark mark).
    destruct (check_win b mark).
    + destruct (py_eqb _ _); cbn; repeat split; try easy; congruence.
    + destruct (check_draw b); cbn; rewrite ?Hst; cbn;
        repeat split; try easy; congruence.
Qed.

Lemma update_status_keeps_current_player_on_terminal_witness :
  exists s',
    _update_game_status_after_move "X"
      (mkSession
         (mkGameEngine (Some (("X", "X", "X"), ("O", "O", ""), ("", "", "")))
            (Some "X") None in_progress (Some "X") (Some "O")) rng0)
    = (Ok tt, s')
    /\ game_status (engine s') = player_win
    /\ current_player (engine s') = Some "X".
Proof.
  destruct (update_status_keeps_current_player_on_terminal "X"
              (mkSession
                 (mkGameEngine
                    (Some (("X", "X", "X"), ("O", "O", ""), ("", "", "")))
                    (Some "X") None in_progress (Some "X") (Some "O")) rng0)
              (("X", "X", "X"), ("O", "O", ""), ("", "", ""))
              eq_refl eq_refl eq_refl)
    as [s' [Hrun [_ [Hterm _]]]].
  exists s'. split; [exact Hrun|].
  cbn in Hrun. injection Hrun as <-. split; reflexivity.
Defined.

(** [player_move] up to the placement of the player's mark. *)
Lemma player_move_rejected (x y : Z) (s : Session) :
  (game_status (engine s) <> in_progress ->
   player_move x y s = (Raise GameNotInProgress, s))
  /\ (game_status (engine s) = in_progress ->
      current_player (engine s) <> player_mark (engine s) ->
      player_move x y s = (Raise WrongTurn, s))
  /\ (game_status (engine s) = in_progress ->
      current_player (engine s) = player_mark (engine s) ->
      forall mark b e,
        player_mark (engine s) = Some mark ->
        board (engine s) = Some b ->
        make_move b (mkMove x y) mark = Raise e ->
        player_move x y s = (Raise e, s)).
Proof.
  unfold player_move. rewrite bind_self.
  repeat split.
  - intros Hst. destruct (GameStatus_eqb _ _) eqn:E; [|reflexivity].
    apply GameStatus_eqb_eq in E. contradiction.
  - intros Hst Hcur. rewrite Hst. cbn [GameStatus_eqb negb].
    destruct (py_eqb _ _) eqn:E; [|reflexivity].
    apply py_eqb_eq in E. contradiction.
  - intros Hst Hcur mark b e Hpm Hb Hmk. rewrite Hst. cbn [GameStatus_eqb negb].
    rewrite (proj2 (py_eqb_eq _ _) Hcur). cbn [negb].
    rewrite Hpm. unfold deref. rewrite bind_ret.
    unfold bind at 1, on_own_board at 1. rewrite Hb.
    rewrite Board_make_move_run, Hmk. cbn [w_board w_rng].
    rewrite set_board_same by exact Hb. now rewrite session_eta.
Qed.

(** ** What each engine call does to the engine *)

Lemma placements_one e e' : placement e e' -> placements e e'.
Proof. intros H. eapply placements_cons; [exact H | apply placements_nil]. Qed.

Lemma placements_trans e1 e2 e3 :
  placements e1 e2 -> placements e2 e3 -> placements e1 e3.
Proof.
  induction 1 as [|a b c Hab Hbc IH]; intros H; [exact H|].
  eapply placements_cons; [exact Hab | now apply IH].
Qed.

(** A call that hands the board back as it received it leaves the engine as
    it is; only the generator may have advanced. *)
Lemma on_own_board_frame {A} (c : M World A) s :
  board_frame c ->
  exists r rg, on_own_board c s = (r, mkSession (engine s) rg).
Proof.
  intros Hc. unfold on_own_board.
  destruct (board (engine s)) as [b|] eqn:Hb.
  - specialize (Hc (mkWorld b (rng s))).
    destruct (c (mkWorld b (rng s))) as [r w]. cbn [snd w_board] in Hc.
    exists r, (w_rng w). now rewrite Hc, (set_board_same _ _ Hb).
  - exists (Raise AttributeError), (rng s). now rewrite session_eta.
Qed.

(** [self.board.make_move(move, mark)] on the engine's board. *)
Lemma on_own_board_make_move move mark s :
  on_own_board (Board_make_move move mark) s
  = match board (engine s) with
    | None => (Raise AttributeError, s)
    | Some b =>
        match make_move b move mark with
        | Ok b' => (Ok tt, mkSession (set_board (Some b') (engine s)) (rng s))
        | Raise e => (Raise e, s)
        end
    end.
Proof.
  unfold on_own_board. destruct (board (engine s)) as [b|] eqn:Hb; [|reflexivity].
  rewrite Board_make_move_run.
  destruct (make_move b move mark) as [b'|e]; cbn [w_board w_rng]; [reflexivity|].
  now rewrite (set_board_same _ _ Hb), session_eta.
Qed.

(** A mark placed by the engine and the status update that follows. *)
Lemma place_and_update move mark s {A} (k : M Session A) :
  game_status (engine s) = in_progress ->
  current_player (engine s) = Some mark ->
  (on_own_board (Board_make_move move mark) ;;
   _update_game_status_after_move mark ;; k) s
  = match board (engine s) with
    | None => (Raise AttributeError, s)
    | Some b =>
        match make_move b move mark with
        | Ok _ => k (mkSession (apply_move mark move b (engine s)) (rng s))
        | Raise e => (Raise e, s)
        end
    end
  /\ (forall b b', board (engine s) = Some b ->
        make_move b move mark = Ok b' ->
        placement (engine s) (apply_move mark move b (engine s))).
Proof.
  intros Hst Hcur. split.
  - unfold bind at 1. rewrite on_own_board_make_move.
    destruct (board (engine s)) as [b|] eqn:Hb; [|reflexivity].
    destruct (make_move b move mark) as [b'|e] eqn:Hmk; [|reflexivity].
    destruct (make_move_Ok_inv _ _ _ _ Hmk) as [Hin ->].
    unfold bind at 1.
    rewrite (_update_game_status_after_move_run mark _ (place b move mark))
      by reflexivity.
    reflexivity.
  - intros b b' Hb Hmk. destruct (make_move_Ok_inv _ _ _ _ Hmk) as [Hin _].
    now apply placement_of.
Qed.

(** [_process_ai_move] makes at most one accepted move. *)
Lemma _process_ai_move_placements s :
  placements (engine s) (engine (snd (_process_ai_move s))).
Proof.
  unfold _process_ai_move. rewrite bind_self.
  destruct (negb (GameStatus_eqb (game_status (engine s)) in_progress)
            || negb (py_eqb (current_player (engine s)) (ai_mark (engine s))))
    eqn:Hgo; [apply placements_nil|].
  apply orb_false_elim in Hgo. destruct Hgo as [Hst Hcur].
  apply negb_false_iff in Hst, Hcur.
  apply GameStatus_eqb_eq in Hst. apply py_eqb_eq in Hcur.
  destruct (ai_opponent (engine s)) as [o|]; cbn [deref];
    [rewrite bind_ret | apply placements_nil].
  destruct (on_own_board_frame (AIOpponent_make_move o) s
              (frame_AIOpponent_make_move o)) as [r [rg E]].
  unfold bind at 1. rewrite E.
  destruct r as [[move|]|e]; [|apply placements_nil..].
  destruct (ai_mark (engine s)) as [mark|] eqn:Hmark; cbn [deref];
    [rewrite bind_ret | apply placements_nil].
  destruct (place_and_update move mark (mkSession (engine s) rg)
              (ret (Some move)) Hst Hcur) as [Hrun Hplace].
  rewrite Hrun. cbn [engine] in *.
  destruct (board (engine s)) as [b|]; [|apply placements_nil].
  destruct (make_move b move mark) as [b'|e] eqn:Hmk; [|apply placements_nil].
  apply placements_one. now apply (Hplace b b').
Qed.

(** The tail of [player_move] and [start_new_game] that builds the returned
    dictionary reads the engine and changes nothing. *)
Lemma snapshot_tail {A} (f : GameEngine -> Board -> A) s :
  snd ((e <- self ;; b <- deref (board e) ;; ret (f e b)) s) = s.
Proof.
  rewrite bind_self. now destruct (board (engine s)).
Qed.

Lemma snd_bind {S A B} (c : M S A) (k : A -> M S B) s :
  snd (bind c k s)
  = match c s with
    | (Ok a, s') => snd (k a s')
    | (Raise _, s') => s'
    end.
Proof. unfold bind. now destruct (c s) as [[a|e] s']. Qed.

(** [player_move] makes at most two accepted moves: the player's and the
    opponent's answer. *)
Lemma player_move_placements x y s :
  placements (engine s) (engine (snd (player_move x y s))).
Proof.
  unfold player_move. rewrite bind_self.
  destruct (GameStatus_eqb (game_status (engine s)) in_progress) eqn:Hst;
    cbn [negb]; [|apply placements_nil].
  destruct (py_eqb (current_player (engine s)) (player_mark (engine s)))
    eqn:Hcur; cbn [negb]; [|apply placements_nil].
  apply GameStatus_eqb_eq in Hst. apply py_eqb_eq in Hcur.
  destruct (player_mark (engine s)) as [mark|] eqn:Hmark; cbn [deref];
    [rewrite bind_ret | apply placements_nil].
  match goal with
  | |- context [_update_game_status_after_move mark ;; ?k] =>
      destruct (place_and_update (mkMove x y) mark s k Hst Hcur)
        as [Hrun Hplace]
  end.
  rewrite Hrun.
  destruct (board (engine s)) as [b|]; [|apply placements_nil].
  destruct (make_move b (mkMove x y) mark) as [b'|e] eqn:Hmk;
    [|apply placements_nil].
  eapply placements_cons; [now apply (Hplace b b')|].
  rewrite bind_self. cbn [engine].
  set (s1 := mkSession (apply_move mark (mkMove x y) b (engine s)) (rng s)).
  rewrite snd_bind.
  destruct (GameStatus_eqb _ _).
  - pose proof (_process_ai_move_placements s1) as Hai.
    destruct (_process_ai_move s1) as [[ai_move|e] s2]; cbn [snd] in Hai.
    + now rewrite snapshot_tail.
    + exact Hai.
  - unfold ret at 1. rewrite snapshot_tail. apply placements_nil.
Qed.
(** [start_new_game]: a rejected mark changes nothing; a rejected
    difficulty leaves a new board and the new marks behind; otherwise the
    game is set up and the opponent opens it when it plays X. *)
Lemma start_new_game_run pmark d s :
  (existsb (String.eqb pmark) ["X"; "O"] = false ->
   start_new_game pmark d s = (Raise InvalidMark, s))
  /\ (existsb (String.eqb pmark) ["X"; "O"] = true ->
      forall e, new_AIOpponent d pmark = Raise e ->
        start_new_game pmark d s
        = (Raise e,
           mkSession
             (set_ai_mark (Some (other_mark pmark))
                (set_player_mark (Some pmark)
                   (set_board (Some new_Board) (engine s)))) (rng s)))
  /\ (existsb (String.eqb pmark) ["X"; "O"] = true ->
      forall o, new_AIOpponent d pmark = Ok o ->
        placements (started_engine pmark o)
          (engine (snd (start_new_game pmark d s)))).
Proof.
  unfold start_new_game. repeat split.
  - now intros ->.
  - intros -> e He. cbn [negb]. rewrite !bind_assign. cbn [engine rng].
    now rewrite He.
  - intros -> o Ho. cbn [negb]. rewrite !bind_assign. cbn [engine rng].
    rewrite Ho. cbn [lift_result]. rewrite bind_ret, !bind_assign.
    cbn [engine rng]. rewrite bind_self. cbn [engine].
    match goal with
    | |- context [mkSession ?e (rng s)] =>
        change e with (started_engine pmark o)
    end.
    set (s1 := mkSession (started_engine pmark o) (rng s)).
    rewrite snd_bind.
    destruct (py_eqb _ _).
    + pose proof (_process_ai_move_placements s1) as Hai.
      destruct (_process_ai_move s1) as [[ai_move|e] s2]; cbn [snd] in Hai.
      * now rewrite snapshot_tail.
      * exact Hai.
    + unfold ret at 1. rewrite snapshot_tail. apply placements_nil.
Qed.

Lemma new_AIOpponent_Raise d pmark e :
  new_AIOpponent d pmark = Raise e -> e = InvalidDifficulty.
Proof.
  unfold new_AIOpponent, create_strategy.
  repeat (destruct (_ =? _)%string; [discriminate|]). congruence.
Qed.

Lemma change_difficulty_engine d s :
  engine (snd (change_difficulty d s)) = engine s
  \/ exists o o', ai_opponent (engine s) = Some o
       /\ engine (snd (change_difficulty d s))
          = set_ai_opponent (Some o') (engine s)
       /\ personality o' = personality o.
Proof.
  unfold change_difficulty. rewrite bind_self.
  destruct (ai_opponent (engine s)) as [o|] eqn:Ho; [|now left].
  right. exists o. unfold bind, on_opponent, set_difficulty.
  destruct (create_strategy d); eexists; cbn; split; try reflexivity;
    split; reflexivity.
Qed.

Lemma set_ai_personality_engine q s :
  engine (snd (set_ai_personality q s)) = engine s
  \/ exists o', engine (snd (set_ai_personality q s))
                = set_ai_opponent (Some o') (engine s).
Proof.
  unfold set_ai_personality. rewrite bind_self.
  destruct (ai_opponent (engine s)) as [o|] eqn:Ho; [|now left].
  right. eexists. reflexivity.
Qed.

(** ** AIPersonality.adjust_move *)

Lemma Qle_bool_false a b : Qle_bool a b = false -> (b < a)%Q.
Proof.
  intros H. apply Qnot_le_lt. intros Hle.
  apply Qle_bool_iff in Hle. congruence.
Qed.

(** The cumulative walk finds the first candidate whose running total
    reaches the draw, whenever the draw is at most the total. *)
Lemma weighted_walk_first wc :
  forall upto r,
    wc <> [] ->
    (r <= fold_left Qplus (map snd wc) upto)%Q ->
    exists i move,
      weighted_walk wc upto r = Some move
      /\ nth_error (map fst wc) i = Some move
      /\ (r <= fold_left Qplus (map snd (firstn (S i) wc)) upto)%Q
      /\ (forall j, (j < i)%nat ->
            (fold_left Qplus (map snd (firstn (S j) wc)) upto < r)%Q).
Proof.
  induction wc as [|[m wt] rest IH]; intros upto r Hne Hr; [congruence|].
  cbn [weighted_walk].
  destruct (Qle_bool r (upto + wt)) eqn:E.
  - exists 0%nat, m. repeat split.
    + cbn. now apply Qle_bool_iff.
    + intros j Hj. lia.
  - apply Qle_bool_false in E.
    destruct rest as [|c rest'].
    + cbn in Hr. exfalso. apply (Qlt_irrefl r).
      now apply (Qle_lt_trans _ (upto + wt)).
    + destruct (IH (upto + wt)%Q r) as [i [move [Hw [Hn [Hle Hlt]]]]];
        [discriminate | exact Hr |].
      exists (S i), move. repeat split; [exact Hw | exact Hn | exact Hle |].
      intros [|j] Hj; [exact E|]. apply Hlt. lia.
Qed.

Lemma weighted_walk_In wc :
  forall upto r move,
    weighted_walk wc upto r = Some move -> In move (map fst wc).
Proof.
  induction wc as [|[m wt] rest IH]; intros upto r move; [discriminate|].
  cbn [weighted_walk map fst].
  destruct (Qle_bool r (upto + wt)).
  - intros E. injection E as <-. now left.
  - intros E. right. exact (IH _ _ _ E).
Qed.

Lemma dict_get_preferences_positive q key :
  (0 < dict_get (move_preferences (new_AIPersonality q)) key 1)%Q.
Proof.
  cbn [new_AIPersonality move_preferences dict_get].
  repeat (destruct (_ && _); [reflexivity|]). reflexivity.
Qed.

Lemma fold_left_Qplus_nonneg l :
  Forall (fun x => (0 <= x)%Q) l ->
  forall a, (a <= fold_left Qplus l a)%Q.
Proof.
  induction 1 as [|x l Hx Hl IH]; intros a; [apply Qle_refl|].
  cbn [fold_left]. apply (Qle_trans _ (a + x)); [|apply IH].
  rewrite <- (Qplus_0_r a) at 1. now apply Qplus_le_r.
Qed.

Lemma total_weight_nonneg q candidates :
  (0 <= total_weight (weigh (new_AIPersonality q) candidates))%Q.
Proof.
  unfold total_weight. apply fold_left_Qplus_nonneg.
  unfold weigh. rewrite map_map. cbn [snd].
  apply Forall_forall. intros x Hx. apply in_map_iff in Hx.
  destruct Hx as [m [<- _]]. apply Qlt_le_weak, dict_get_preferences_positive.
Qed.

Lemma map_fst_weigh p candidates : map fst (weigh p candidates) = candidates.
Proof.
  unfold weigh. rewrite map_map. cbn [fst]. apply map_id.
Qed.

Lemma Move_eqb_refl m : Move_eqb m m = true.
Proof. unfold Move_eqb. now rewrite !Z.eqb_refl. Qed.

Lemma Move_ne_true move suggested :
  Move_ne move suggested = true -> suggested <> Some move.
Proof.
  destruct suggested as [s|]; [|discriminate].
  cbn. intros H E. injection E as ->. now rewrite Move_eqb_refl in H.
Qed.

Lemma random_uniform_run a b w :
  random_uniform a b w
  = (Ok (a + (b - a) * rnd_floats (w_rng w) (rnd_pos (w_rng w)))%Q,
     mkWorld (w_board w) (rng_next (w_rng w))).
Proof. reflexivity. Qed.

Lemma uniform_draw_range total u :
  (0 <= total)%Q -> (0 <= u)%Q -> (u < 1)%Q ->
  (0 <= 0 + (total - 0) * u)%Q /\ (0 + (total - 0) * u <= total)%Q.
Proof.
  intros Ht Hu Hu1.
  assert (E : (0 + (total - 0) * u == total * u)%Q) by ring.
  rewrite E. split.
  - now apply Qmult_le_0_compat.
  - rewrite <- (Qmult_1_l total) at 2. rewrite (Qmult_comm total u).
    apply Qmult_le_compat_r; [now apply Qlt_le_weak | exact Ht].
Qed.
Lemma get_empty_cells_filter b :
  get_empty_cells b
  = filter (fun m => (grid_get b (mx m) (my m) =? "")%string) all_cells.
Proof.
  unfold get_empty_cells, all_cells. cbn [flat_map map range3 app].
  cbn [filter mx my].
  repeat match goal with
         | |- context [(grid_get b ?x ?y =? "")%string] =>
             destruct (grid_get b x y =? "")%string
         end; reflexivity.
Qed.

Lemma NoDup_all_cells : NoDup all_cells.
Proof.
  cbn. repeat (constructor; [cbn; intuition discriminate|]). constructor.
Qed.

Lemma NoDup_get_empty_cells b : NoDup (get_empty_cells b).
Proof.
  rewrite get_empty_cells_filter. apply NoDup_filter, NoDup_all_cells.
Qed.

Lemma Move_eqb_eq a b : Move_eqb a b = true <-> a = b.
Proof.
  destruct a as [x y], b as [x' y']. unfold Move_eqb. cbn [mx my].
  rewrite andb_true_iff, !Z.eqb_eq. split; [intros [-> ->] | intros E];
    [reflexivity | injection E; auto].
Qed.

Lemma bind_the_board {A} (k : Board -> M World A) w :
  bind the_board k w = k (w_board w) w.
Proof. reflexivity. Qed.

(** Two distinct empty cells leave a candidate whatever the suggestion. *)
Lemma candidates_nonempty l suggested :
  NoDup l -> (2 <= List.length l)%nat ->
  filter (fun move => Move_ne move suggested) l <> [].
Proof.
  intros Hnd Hlen. destruct l as [|a [|b l]]; cbn in Hlen; try lia.
  inversion Hnd as [|? ? Hnotin _]; subst.
  assert (Hab : a <> b) by (intros ->; apply Hnotin; now left).
  destruct suggested as [s|]; cbn [filter Move_ne]; [|discriminate].
  destruct (Move_eqb a s) eqn:Ea; cbn [negb]; [|discriminate].
  destruct (Move_eqb b s) eqn:Eb; cbn [negb]; [|discriminate].
  apply Move_eqb_eq in Ea, Eb. congruence.
Qed.

Lemma adjust_move_cases
  (p : AIPersonality) (suggested : option Move) (w : World) :
  ((List.length (get_empty_cells (w_board w)) <= 1)%nat ->
   adjust_move p suggested w = (Ok suggested, w))
  /\ ((2 <= List.length (get_empty_cells (w_board w)))%nat ->
      exists move w',
        adjust_move p suggested w = (Ok (Some move), w')
        /\ w_board w' = w_board w
        /\ In move (get_empty_cells (w_board w))
        /\ suggested <> Some move).
Proof.
  unfold adjust_move. rewrite bind_the_board.
  split; intros Hlen.
  - apply Nat.leb_le in Hlen. now rewrite Hlen.
  - assert (E : (List.length (get_empty_cells (w_board w)) <=? 1)%nat = false)
      by (apply Nat.leb_gt; lia).
    rewrite E.
    pose proof (candidates_nonempty _ suggested
                  (NoDup_get_empty_cells (w_board w)) Hlen) as Hne.
    set (cands := filter (fun move => Move_ne move suggested)
                    (get_empty_cells (w_board w))) in *.
    assert (Hc : forall m, In m cands ->
                   In m (get_empty_cells (w_board w)) /\ suggested <> Some m).
    { intros m Hm. apply filter_In in Hm. destruct Hm as [Hin Hm].
      split; [exact Hin | now apply Move_ne_true]. }
    destruct cands as [|c cs] eqn:Ec; [congruence|].
    rewrite <- Ec in *. unfold bind at 1. rewrite random_uniform_run.
    destruct (weighted_walk (weigh p cands) 0 _) as [move|] eqn:Ew.
    + exists move. eexists. split; [reflexivity|]. split; [reflexivity|].
      apply Hc. apply weighted_walk_In in Ew.
      now rewrite map_fst_weigh in Ew.
    + unfold bind, random_choice. rewrite Ec. cbn [w_rng w_board rnd_pos].
      eexists. eexists. split; [reflexivity|]. split; [reflexivity|].
      apply Hc. rewrite Ec. apply nth_In.
      apply Nat.mod_upper_bound. discriminate.
Qed.

(** X17. [adjust_move] hands the suggestion back, drawing nothing, when at most
    one cell is empty; with two or more empty cells it returns, for every
    draw and every weight table, an empty cell other than the suggested move,
    and leaves the board as it is. *)
Theorem adjust_move_returns_other_empty_cell
  (p : AIPersonality) (suggested : option Move) (w : World) :
  ((List.length (get_empty_cells (w_board w)) <= 1)%nat ->
   adjust_move p suggested w = (Ok suggested, w))
  /\ ((2 <= List.length (get_empty_cells (w_board w)))%nat ->
      exists move w',
        adjust_move p suggested w = (Ok (Some move), w')
        /\ w_board w' = w_board w
        /\ In move (get_empty_cells (w_board w))
        /\ suggested <> Some move).
Proof. exact (adjust_move_cases p suggested w). Qed.


(** * Further properties of the board *)

(** X1. [make_move] succeeds exactly on the cells [get_empty_cells] lists
    and then writes the mark there and nowhere else; it raises [OutOfBounds]
    exactly when the coordinates are off the board and [CellOccupied] exactly
    on a cell of the board that is not empty. *)
Theorem make_move_accepts_exactly_empty_cells
  (b : Board) (move : Move) (mark : string) :
  (forall b', make_move b move mark = Ok b' <->
              In move (get_empty_cells b) /\ b' = place b move mark)
  /\ (In move (get_empty_cells b) ->
      forall x y, In x range3 -> In y range3 ->
        grid_get (place b move mark) x y
        = if Move_eqb (mkMove x y) move then mark else grid_get b x y)
  /\ (make_move b move mark = Raise OutOfBounds <->
      in_bounds (mx move) (my move) = false)
  /\ (make_move b move mark = Raise CellOccupied <->
      in_bounds (mx move) (my move) = true
      /\ grid_get b (mx move) (my move) <> "").
Proof.
  split; [|split; [|split]].
  - intros b'. split.
    + apply make_move_Ok_inv.
    + intros [Hin ->]. apply In_get_empty_cells in Hin.
      destruct Hin as [Hb He]. exact (make_move_ok b move mark Hb He).
  - intros Hin x y Hx Hy. apply In_get_empty_cells in Hin.
    now apply grid_get_place.
  - unfold make_move.
    destruct (in_bounds (mx move) (my move)); cbn [negb];
      [|split; reflexivity].
    destruct (grid_get b (mx move) (my move) =? "")%string; cbn [negb];
      split; discriminate.
  - unfold make_move.
    destruct (in_bounds (mx move) (my move)); cbn [negb];
      [|split; [discriminate | intros [? _]; discriminate]].
    destruct (grid_get b (mx move) (my move) =? "")%string eqn:E;
      cbn [negb].
    + apply String.eqb_eq in E. split; [discriminate | intros [_ ?]; easy].
    + apply String.eqb_neq in E. split; [now split | reflexivity].
Qed.

Lemma check_draw_true_iff b : check_draw b = true <-> get_empty_cells b = [].
Proof.
  rewrite get_empty_cells_filter. unfold check_draw, all_cells.
  cbn [flat_map map range3 app forallb filter mx my].
  repeat match goal with
         | |- context [(grid_get b ?x ?y =? "")%string] =>
             destruct (grid_get b x y =? "")%string
         end; cbn; split; (reflexivity || discriminate).
Qed.

(** X2. [check_draw] answers [True] exactly when [get_empty_cells] is empty,
    whether or not a line is complete; so a board that is not over
    ([is_game_over] false) always offers a move. *)
Theorem check_draw_iff_no_empty_cell (b : Board) :
  (check_draw b = true <-> get_empty_cells b = [])
  /\ (is_game_over b = false -> get_empty_cells b <> []).
Proof.
  split; [apply check_draw_true_iff|].
  unfold is_game_over. intros Hover E. apply check_draw_true_iff in E.
  rewrite E in Hover. now rewrite orb_true_r in Hover.
Qed.

(** X3. A non-empty mark placed on an empty cell takes exactly that cell out
    of [get_empty_cells]: the other empty cells stay, none is added, and the
    count drops by one. *)
Theorem get_empty_cells_after_place
  (b : Board) (move : Move) (mark : string) :
  In move (get_empty_cells b) ->
  mark <> "" ->
  (forall m, In m (get_empty_cells (place b move mark)) <->
             In m (get_empty_cells b) /\ m <> move)
  /\ S (List.length (get_empty_cells (place b move mark)))
     = List.length (get_empty_cells b).
Proof.
  intros Hin Hne. pose proof Hin as Hin'.
  apply In_get_empty_cells in Hin'. destruct Hin' as [Hb He]. split.
  - intros m. rewrite !In_get_empty_cells. split.
    + intros [Hmb Hme].
      assert (Hx : In (mx m) range3 /\ In (my m) range3).
      { apply in_bounds_cases in Hmb. cbn. intuition. }
      rewrite (grid_get_place b move mark _ _ Hb (proj1 Hx) (proj2 Hx)) in Hme.
      destruct (Move_eqb (mkMove (mx m) (my m)) move) eqn:E;
        [contradiction|].
      repeat split; [exact Hmb | exact Hme |].
      intros ->. destruct move as [x y]. cbn [mx my] in E.
      now rewrite Move_eqb_refl in E.
    + intros [[Hmb Hme] Hm]. split; [exact Hmb|].
      assert (Hx : In (mx m) range3 /\ In (my m) range3).
      { apply in_bounds_cases in Hmb. cbn. intuition. }
      rewrite (grid_get_place b move mark _ _ Hb (proj1 Hx) (proj2 Hx)).
      destruct (Move_eqb (mkMove (mx m) (my m)) move) eqn:E; [|exact Hme].
      apply Move_eqb_eq in E. destruct m as [x y]. cbn [mx my] in E.
      contradiction.
  - fold (count_empty (place b move mark)). fold (count_empty b).
    rewrite !count_empty_cells. unfold place.
    destruct move as [x y]; cbn [mx my] in *. board_cases b.
    assert (Hm : ind_empty mark = 0%nat).
    { unfold ind_empty. apply String.eqb_neq in Hne. now rewrite Hne. }
    bounds_cases Hb; cbn in He; subst; cbn; rewrite Hm;
      change (ind_empty "") with 1%nat; lia.
Qed.

Lemma get_empty_cells_after_place_witness :
  S (List.length (get_empty_cells (place new_Board (mkMove 1 1) "X")))
  = List.length (get_empty_cells new_Board).
Proof.
  apply (get_empty_cells_after_place new_Board (mkMove 1 1) "X").
  - cbn. tauto.
  - discriminate.
Defined.

(** X4. A mark placed on an empty cell completes no line of another mark and
    breaks none: [check_win] for every other non-empty mark answers as
    before. *)
Theorem check_win_unchanged_for_other_mark
  (b : Board) (move : Move) (mark mark' : string) :
  In move (get_empty_cells b) ->
  mark' <> mark -> mark' <> "" ->
  check_win (place b move mark) mark' = check_win b mark'.
Proof. exact (check_win_place_other b move mark mark'). Qed.

Lemma check_win_unchanged_for_other_mark_witness :
  check_win (place (("O", "O", ""), ("X", "X", ""), ("", "", ""))
               (mkMove 1 2) "X") "O"
  = check_win (("O", "O", ""), ("X", "X", ""), ("", "", "")) "O".
Proof.
  apply (check_win_unchanged_for_other_mark
           (("O", "O", ""), ("X", "X", ""), ("", "", "")) (mkMove 1 2)
           "X" "O").
  - cbn. tauto.
  - discriminate.
  - discriminate.
Defined.

(** X5. [undo_move] needs only coordinates on the board: it empties the
    cell whatever it holds, and placing the mark it held again gives the
    board back. *)
Theorem undo_move_then_make_move_restores (b : Board) (move : Move) :
  in_bounds (mx move) (my move) = true ->
  exists b1,
    undo_move b move = Ok b1
    /\ grid_get b1 (mx move) (my move) = ""
    /\ make_move b1 move (grid_get b (mx move) (my move)) = Ok b.
Proof.
  intros Hb. unfold undo_move, make_move. rewrite Hb. cbn [negb].
  eexists. split; [reflexivity|].
  destruct move as [x y]. cbn [mx my] in *. board_cases b.
  bounds_cases Hb; cbn; split; reflexivity.
Qed.

Lemma undo_move_then_make_move_restores_witness :
  exists b1,
    undo_move (("X", "", ""), ("", "O", ""), ("", "", "")) (mkMove 1 1) = Ok b1
    /\ grid_get b1 1 1 = ""
    /\ make_move b1 (mkMove 1 1) "O"
       = Ok (("X", "", ""), ("", "O", ""), ("", "", "")).
Proof.
  exact (undo_move_then_make_move_restores
           (("X", "", ""), ("", "O", ""), ("", "", "")) (mkMove 1 1) eq_refl).
Defined.
Lemma line_test_true a b c :
  negb (a =? "")%string && (a =? b)%string && (b =? c)%string = true <->
  a <> "" /\ a = b /\ b = c.
Proof.
  rewrite !andb_true_iff, negb_true_iff, String.eqb_neq, !String.eqb_eq.
  tauto.
Qed.

Lemma three_eqb_true a b c mark :
  (a =? mark)%string && ((b =? mark)%string && ((c =? mark)%string && true))
  = true <-> a = mark /\ b = mark /\ c = mark.
Proof.
  rewrite !andb_true_iff, !String.eqb_eq. tauto.
Qed.

(** X6. [get_winning_line] and [check_win] agree on non-empty marks: a line
    returned by [get_winning_line] is three cells of the board holding one
    non-empty mark for which [check_win] answers [True]; and whenever
    [check_win] answers [True] for a non-empty mark, [get_winning_line]
    returns a line. *)
Theorem get_winning_line_agrees_with_check_win (b : Board) :
  (forall line, get_winning_line b = Some line ->
     exists mark,
       mark <> "" /\ check_win b mark = true /\ List.length line = 3%nat
       /\ Forall (fun m => in_bounds (mx m) (my m) = true
                           /\ grid_get b (mx m) (my m) = mark) line)
  /\ (forall mark, mark <> "" -> check_win b mark = true ->
        get_winning_line b <> None).
Proof.
  board_cases b. unfold get_winning_line, check_win.
  cbn -[String.eqb].
  split.
  - intros line.
    repeat match goal with
           | |- context [if ?c then _ else _] =>
               let E := fresh "E" in
               destruct c eqn:E; [apply line_test_true in E|clear E]
           end;
      intros H; try discriminate H; injection H as <-;
      destruct E as [Hne [-> ->]];
      eexists; (split; [exact Hne|]);
      rewrite ?String.eqb_refl; cbn [andb orb]; rewrite ?orb_true_r;
      (split; [reflexivity|]); (split; [reflexivity|]);
      repeat constructor.
  - intros mark Hne Hwin.
    rewrite !orb_true_iff, !three_eqb_true in Hwin.
    assert (Hm : (mark =? "")%string = false) by now apply String.eqb_neq.
    repeat match goal with
           | |- context [if ?c then _ else _] =>
               let E := fresh "E" in
               destruct c eqn:E; [discriminate|]
           end.
    exfalso.
    repeat match goal with
           | H : _ \/ _ |- _ => destruct H as [H|H]
           end;
      try discriminate;
      match goal with
      | H : _ = mark /\ _ = mark /\ _ = mark |- _ =>
          destruct H as [? [? ?]]; subst
      end;
      rewrite ?Hm, ?String.eqb_refl in *; cbn [negb andb] in *; congruence.
Qed.
(** * Further properties of the strategies *)

Lemma Easy_find_best_move_cases (mark : string) (w : World) :
  (get_empty_cells (w_board w) = [] ->
   find_best_move EasyAIStrategy mark w = (Ok None, w))
  /\ (get_empty_cells (w_board w) <> [] ->
      exists move,
        find_best_move EasyAIStrategy mark w
        = (Ok (Some move), mkWorld (w_board w) (rng_next (w_rng w)))
        /\ In move (get_empty_cells (w_board w))).
Proof.
  cbn [find_best_move]. unfold Easy_find_best_move. rewrite bind_the_board.
  split.
  - now intros ->.
  - intros Hne. destruct (get_empty_cells (w_board w)) as [|c cs] eqn:E;
      [congruence|].
    eexists. split; [reflexivity|].
    apply nth_In. apply Nat.mod_upper_bound. discriminate.
Qed.

(** X8. [EasyAIStrategy.find_best_move] returns [None] on a board without
    empty cells, drawing nothing; otherwise it returns one of the empty
    cells after exactly one draw.  The board is never touched. *)
Theorem Easy_find_best_move_picks_empty_cell (mark : string) (w : World) :
  (get_empty_cells (w_board w) = [] ->
   find_best_move EasyAIStrategy mark w = (Ok None, w))
  /\ (get_empty_cells (w_board w) <> [] ->
      exists move,
        find_best_move EasyAIStrategy mark w
        = (Ok (Some move), mkWorld (w_board w) (rng_next (w_rng w)))
        /\ In move (get_empty_cells (w_board w))).
Proof. exact (Easy_find_best_move_cases mark w). Qed.

(** X9. [_find_winning_move] probes the empty cells in board order, placing
    and clearing the mark on the shared board, and hands the board back as it
    received it: the result is the first empty cell on which the mark would
    complete a line, and [None] exactly when no empty cell does. *)
Theorem find_winning_move_first_winning_cell (mark : string) (w : World) :
  _find_winning_move mark w
  = (Ok (find (fun m => check_win (place (w_board w) m mark) mark)
           (get_empty_cells (w_board w))), w)
  /\ (forall m, fst (_find_winning_move mark w) = Ok (Some m) ->
        In m (get_empty_cells (w_board w))
        /\ check_win (place (w_board w) m mark) mark = true)
  /\ (fst (_find_winning_move mark w) = Ok None <->
      forall m, In m (get_empty_cells (w_board w)) ->
                check_win (place (w_board w) m mark) mark = false).
Proof.
  rewrite _find_winning_move_frame. cbn [fst].
  split; [reflexivity|]. split.
  - intros m E. injection E as E. now apply find_some in E.
  - rewrite <- find_none_iff. split; [intros E; now injection E | now intros ->].
Qed.

(** X10. [MediumAIStrategy.find_best_move] takes a win before a block: when
    some empty cell completes a line of its mark it returns such a cell;
    when none does but some empty cell completes a line of the opponent mark
    it returns such a cell.  In both cases the board is handed back as
    received and nothing is drawn. *)
Theorem Medium_find_best_move_wins_then_blocks (mark : string) (w : World) :
  let b := w_board w in
  let wins (mk : string) (m : Move) := check_win (place b m mk) mk in
  ((exists m, In m (get_empty_cells b) /\ wins mark m = true) ->
   exists m, find_best_move MediumAIStrategy mark w = (Ok (Some m), w)
             /\ In m (get_empty_cells b) /\ wins mark m = true)
  /\ ((forall m, In m (get_empty_cells b) -> wins mark m = false) ->
      (exists m, In m (get_empty_cells b)
                 /\ wins (other_mark mark) m = true) ->
      exists m, find_best_move MediumAIStrategy mark w = (Ok (Some m), w)
                /\ In m (get_empty_cells b)
                /\ wins (other_mark mark) m = true).
Proof.
  intros b wins. rewrite Medium_find_best_move_run. fold b. split.
  - intros [m [Hin Hw]].
    destruct (find (fun m => check_win (place b m mark) mark)
                (get_empty_cells b)) as [m'|] eqn:E.
    + exists m'. split; [reflexivity|]. now apply find_some in E.
    + exfalso. pose proof (find_none _ _ E m Hin) as E'.
      unfold wins in Hw. cbv beta in E'. congruence.
  - intros Hnone [m [Hin Hw]]. apply find_none_iff in Hnone.
    fold b in Hnone. unfold wins in Hnone. rewrite Hnone.
    destruct (find (fun m => check_win (place b m (other_mark mark))
                               (other_mark mark))
                (get_empty_cells b)) as [m'|] eqn:E.
    + exists m'. split; [reflexivity|]. now apply find_some in E.
    + exfalso. pose proof (find_none _ _ E m Hin) as E'.
      unfold wins in Hw. cbv beta in E'. congruence.
Qed.

(** ** Scores of the exhaustive search *)

Lemma fold_left_score_max_Fin l :
  Forall (fun s => exists z, s = Fin z) l ->
  forall a, a <> PosInf -> (l <> [] \/ exists z, a = Fin z) ->
            exists z, fold_left score_max l a = Fin z.
Proof.
  induction 1 as [|s l [z ->] Hl IH]; intros a Hinf Ha.
  - destruct Ha as [Ha|Ha]; [congruence | exact Ha].
  - cbn [fold_left].
    assert (E : exists z', score_max a (Fin z) = Fin z').
    { unfold score_max, score_ltb. destruct a as [|z0|]; cbn; eauto;
        [|congruence].
      destruct (z <=? z0); cbn; eauto. }
    destruct E as [z' E]. rewrite E. apply IH; [discriminate | eauto].
Qed.

Lemma fold_left_score_min_Fin l :
  Forall (fun s => exists z, s = Fin z) l ->
  forall a, a <> NegInf -> (l <> [] \/ exists z, a = Fin z) ->
            exists z, fold_left score_min l a = Fin z.
Proof.
  induction 1 as [|s l [z ->] Hl IH]; intros a Hinf Ha.
  - destruct Ha as [Ha|Ha]; [congruence | exact Ha].
  - cbn [fold_left].
    assert (E : exists z', score_min a (Fin z) = Fin z').
    { unfold score_min, score_ltb. destruct a as [|z0|]; cbn; eauto;
        [congruence|].
      destruct (z0 <=? z); cbn; eauto. }
    destruct E as [z' E]. rewrite E. apply IH; [discriminate | eauto].
Qed.

Lemma check_draw_false_cells b :
  check_draw b = false -> get_empty_cells b <> [].
Proof.
  intros Hd E. apply check_draw_true_iff in E. congruence.
Qed.

(** The exhaustive search never returns an infinity. *)
Lemma exhaustive_minimax_Fin ai opp fuel :
  forall b depth is_max,
    exists z, exhaustive_minimax fuel b depth is_max ai opp = Fin z.
Proof.
  induction fuel as [|n IH]; intros b depth is_max; cbn [exhaustive_minimax];
    [eauto|].
  destruct (check_win b ai); [eauto|].
  destruct (check_win b opp); [eauto|].
  destruct (check_draw b) eqn:Hd; [eauto|].
  apply check_draw_false_cells in Hd.
  destruct is_max.
  - apply fold_left_score_max_Fin; [|discriminate|].
    + apply Forall_forall. intros s Hs. apply in_map_iff in Hs.
      destruct Hs as [m [<- _]]. apply IH.
    + left. intros E. apply map_eq_nil in E. contradiction.
  - apply fold_left_score_min_Fin; [|discriminate|].
    + apply Forall_forall. intros s Hs. apply in_map_iff in Hs.
      destruct Hs as [m [<- _]]. apply IH.
    + left. intros E. apply map_eq_nil in E. contradiction.
Qed.
(** ** The root selection of the Hard strategy *)

Lemma score_ltb_false_sle a b : score_ltb a b = false -> sle b a.
Proof.
  unfold score_ltb, sle. now intros H%negb_false_iff.
Qed.

(** The root loop keeps the first move of strictly greatest score. *)
Lemma fold_pick_better (f : Move -> score) l :
  forall best,
    let res := fold_left (fun best m => pick_better best m (f m)) l best in
    sle (fst best) (fst res)
    /\ (forall m, In m l -> sle (f m) (fst res))
    /\ (res = best \/ exists m, In m l /\ res = (f m, Some m)).
Proof.
  induction l as [|m rest IH]; intros best; cbn [fold_left].
  - cbn. split; [score_order|]. split; [intros m []|now left].
  - specialize (IH (pick_better best m (f m))). cbv zeta in IH.
    destruct IH as [H1 [H2 H3]].
    set (res := fold_left _ rest _) in *.
    unfold pick_better in H1, H3.
    destruct (score_ltb (fst best) (f m)) eqn:E.
    + cbn [fst] in H1. assert (Hlt : slt (fst best) (f m)) by exact E.
      split; [score_order|]. split.
      * intros m' [<-|Hm']; [exact H1 | now apply H2].
      * right. destruct H3 as [H3|[m' [Hm' H3]]].
        -- exists m. split; [now left | exact H3].
        -- exists m'. split; [now right | exact H3].
    + apply score_ltb_false_sle in E. split; [exact H1|]. split.
      * intros m' [<-|Hm']; [score_order | now apply H2].
      * destruct H3 as [H3|[m' [Hm' H3]]]; [now left|].
        right. exists m'. split; [now right | exact H3].
Qed.

Lemma exhaustive_root_best b mark :
  get_empty_cells b <> [] ->
  exists m,
    snd (exhaustive_root b mark) = Some m
    /\ In m (get_empty_cells b)
    /\ forall m', In m' (get_empty_cells b) ->
         sle (exhaustive_minimax search_fuel (place b m' mark) 0 false
                mark (other_mark mark))
             (exhaustive_minimax search_fuel (place b m mark) 0 false
                mark (other_mark mark)).
Proof.
  intros Hne. unfold exhaustive_root.
  pose proof (fold_pick_better
                (fun m => exhaustive_minimax search_fuel (place b m mark) 0
                            false mark (other_mark mark))
                (get_empty_cells b) (NegInf, None)) as H.
  cbv zeta in H. destruct H as [_ [H2 H3]].
  set (res := fold_left _ _ _) in *.
  destruct H3 as [H3|[m [Hm H3]]].
  - exfalso. destruct (get_empty_cells b) as [|c cs]; [congruence|].
    specialize (H2 c (or_introl eq_refl)). rewrite H3 in H2. cbn [fst] in H2.
    destruct (exhaustive_minimax_Fin mark (other_mark mark) search_fuel
                (place b c mark) 0 false) as [z Hz].
    cbv beta in H2. rewrite Hz in H2. discriminate H2.
  - exists m. rewrite H3 in *. cbn [fst snd] in *.
    split; [reflexivity|]. split; [exact Hm | exact H2].
Qed.

Lemma Hard_find_best_move_cases (mark : string) (w : World) :
  (get_empty_cells (w_board w) = [] ->
   find_best_move HardAIStrategy mark w = (Ok None, w))
  /\ (get_empty_cells (w_board w) <> [] ->
      exists move,
        find_best_move HardAIStrategy mark w = (Ok (Some move), w)
        /\ In move (get_empty_cells (w_board w))).
Proof.
  rewrite (proj2 (Hard_search_exhaustive w mark)). split.
  - intros E. unfold exhaustive_root. now rewrite E.
  - intros Hne.
    destruct (exhaustive_root_best (w_board w) mark Hne) as [m [E [Hin _]]].
    exists m. now rewrite E.
Qed.

(** X12. [HardAIStrategy.find_best_move] returns [None] exactly on a board
    without empty cells; on every other board, whatever it shows (a game
    already decided included) and whatever the mark, it returns one of the
    empty cells.  It raises nothing, draws nothing and hands the board back
    as it received it. *)
Theorem Hard_find_best_move_answers (mark : string) (w : World) :
  (get_empty_cells (w_board w) = [] ->
   find_best_move HardAIStrategy mark w = (Ok None, w))
  /\ (get_empty_cells (w_board w) <> [] ->
      exists move,
        find_best_move HardAIStrategy mark w = (Ok (Some move), w)
        /\ In move (get_empty_cells (w_board w))).
Proof. exact (Hard_find_best_move_cases mark w). Qed.

(** ** Bounds on the scores *)

Lemma fold_left_score_max_range lo hi l :
  Forall (fun s => exists z, s = Fin z /\ lo <= z <= hi) l ->
  forall a,
    (a = NegInf /\ l <> []) \/ (exists z, a = Fin z /\ lo <= z <= hi) ->
    exists z, fold_left score_max l a = Fin z /\ lo <= z <= hi.
Proof.
  induction 1 as [|s l [z [-> Hz]] Hl IH]; intros a Ha.
  - destruct Ha as [[_ Ha]|Ha]; [congruence | exact Ha].
  - cbn [fold_left]. apply IH. right.
    destruct Ha as [[-> _]|[z0 [-> Hz0]]].
    + exists z. now split.
    + unfold score_max, score_ltb. cbn.
      destruct (z <=? z0); cbn; eauto.
Qed.

Lemma fold_left_score_min_range lo hi l :
  Forall (fun s => exists z, s = Fin z /\ lo <= z <= hi) l ->
  forall a,
    (a = PosInf /\ l <> []) \/ (exists z, a = Fin z /\ lo <= z <= hi) ->
    exists z, fold_left score_min l a = Fin z /\ lo <= z <= hi.
Proof.
  induction 1 as [|s l [z [-> Hz]] Hl IH]; intros a Ha.
  - destruct Ha as [[_ Ha]|Ha]; [congruence | exact Ha].
  - cbn [fold_left]. apply IH. right.
    destruct Ha as [[-> _]|[z0 [-> Hz0]]].
    + exists z. now split.
    + unfold score_min, score_ltb. cbn.
      destruct (z0 <=? z); cbn; eauto.
Qed.

(** With non-empty marks every ply fills a cell, so a position at depth [d]
    with [n] empty cells is decided by depth [d + n]: its score lies
    between [d - 10] and [10 - d]. *)
Lemma exhaustive_minimax_range ai opp :
  ai <> "" -> opp <> "" ->
  forall fuel b depth is_max,
    0 <= depth -> depth + Z.of_nat (count_empty b) <= 10 ->
    exists z, exhaustive_minimax fuel b depth is_max ai opp = Fin z
              /\ depth - 10 <= z <= 10 - depth.
Proof.
  intros Hai Hopp.
  induction fuel as [|n IH]; intros b depth is_max Hd Hc;
    cbn [exhaustive_minimax]; [exists 0; split; [reflexivity|lia]|].
  destruct (check_win b ai); [eexists; split; [reflexivity|lia]|].
  destruct (check_win b opp); [eexists; split; [reflexivity|lia]|].
  destruct (check_draw b) eqn:Hdraw; [exists 0; split; [reflexivity|lia]|].
  apply check_draw_false_cells in Hdraw.
  assert (Hchild : forall m mk, mk <> "" -> In m (get_empty_cells b) ->
            exists z, exhaustive_minimax n (place b m mk) (depth + 1)
                        (negb is_max) ai opp = Fin z
                      /\ depth - 10 <= z <= 10 - depth).
  { intros m mk Hmk Hin.
    destruct (count_empty_place b m mk Hin) as [_ Hlt]. specialize (Hlt Hmk).
    destruct (IH (place b m mk) (depth + 1) (negb is_max)) as [z [E Hz]];
      [lia | lia |].
    exists z. split; [exact E | lia]. }
  destruct is_max.
  - apply fold_left_score_max_range.
    + apply Forall_forall. intros s Hs. apply in_map_iff in Hs.
      destruct Hs as [m [<- Hin]]. exact (Hchild m ai Hai Hin).
    + left. split; [reflexivity|]. intros E. apply map_eq_nil in E.
      contradiction.
  - apply fold_left_score_min_range.
    + apply Forall_forall. intros s Hs. apply in_map_iff in Hs.
      destruct Hs as [m [<- Hin]]. exact (Hchild m opp Hopp Hin).
    + left. split; [reflexivity|]. intros E. apply map_eq_nil in E.
      contradiction.
Qed.

(** X13. Called at depth 0 with the full window and non-empty marks,
    [_minimax] raises nothing, leaves the shared board and the generator as
    it found them and returns an integer score between -10 and 10, never an
    infinity. *)
Theorem minimax_score_range
  (ai opp : string) (is_maximizing : bool) (w : World) :
  ai <> "" -> opp <> "" ->
  exists z,
    _minimax search_fuel 0 is_maximizing ai opp NegInf PosInf w
    = (Ok (Fin z), w)
    /\ -10 <= z <= 10.
Proof.
  intros Hai Hopp.
  assert (Hm : (search_measure (w_board w) is_maximizing < search_fuel)%nat).
  { unfold search_measure, search_fuel.
    pose proof (count_empty_le_9 (w_board w)). destruct is_maximizing; lia. }
  rewrite (_minimax_frame ai opp Hopp _ _ _ _ _ w Hm).
  rewrite alphabeta_full_window.
  destruct (exhaustive_minimax_range ai opp Hai Hopp search_fuel (w_board w)
              0 is_maximizing) as [z [E Hz]].
  - lia.
  - pose proof (count_empty_le_9 (w_board w)). lia.
  - exists z. rewrite E. split; [reflexivity | lia].
Qed.

Lemma minimax_score_range_witness :
  exists z,
    _minimax search_fuel 0 true "X" "O" NegInf PosInf
      (mkWorld (("X", "O", "X"), ("O", "X", ""), ("", "", "O")) rng0)
    = (Ok (Fin z),
       mkWorld (("X", "O", "X"), ("O", "X", ""), ("", "", "O")) rng0)
    /\ -10 <= z <= 10.
Proof.
  apply (minimax_score_range "X" "O" true); discriminate.
Defined.

(** X14. The Hard strategy never passes up an immediate win: when some empty
    cell completes a line of its (non-empty) mark, the cell it returns
    completes one. *)
Theorem Hard_takes_immediate_win (mark : string) (w : World) (m : Move) :
  mark <> "" ->
  In m (get_empty_cells (w_board w)) ->
  check_win (place (w_board w) m mark) mark = true ->
  exists move,
    find_best_move HardAIStrategy mark w = (Ok (Some move), w)
    /\ In move (get_empty_cells (w_board w))
    /\ check_win (place (w_board w) move mark) mark = true.
Proof.
  intros Hmark Hin Hwin.
  rewrite (proj2 (Hard_search_exhaustive w mark)).
  set (b := w_board w) in *.
  assert (Hne : get_empty_cells b <> []) by (intros E; now rewrite E in Hin).
  destruct (exhaustive_root_best b mark Hne) as [move [E [Hmove Hbest]]].
  exists move. rewrite E. split; [reflexivity|]. split; [exact Hmove|].
  specialize (Hbest m Hin).
  change search_fuel with (S 19) in Hbest. remember 19%nat as n eqn:Hn.
  clear Hn. cbn [exhaustive_minimax] in Hbest.
  rewrite Hwin in Hbest.
  destruct (check_win (place b move mark) mark); [reflexivity|exfalso].
  assert (Hcount : (count_empty (place b move mark) < count_empty b)%nat)
    by (apply (count_empty_place b move mark Hmove); exact Hmark).
  pose proof (count_empty_le_9 b) as H9.
  destruct (check_win (place b move mark) (other_mark mark));
    [discriminate Hbest|].
  destruct (check_draw (place b move mark)) eqn:Hdraw; [discriminate Hbest|].
  apply check_draw_false_cells in Hdraw.
  destruct (fold_left_score_min_range (-9) 9
              (map (fun m0 =>
                      exhaustive_minimax n
                        (place (place b move mark) m0 (other_mark mark))
                        (0 + 1) true mark (other_mark mark))
                 (get_empty_cells (place b move mark))) ) with (a := PosInf)
    as [z [Ez Hz]].
  - apply Forall_forall. intros s Hs. apply in_map_iff in Hs.
    destruct Hs as [m0 [<- Hm0]].
    destruct (count_empty_place (place b move mark) m0 (other_mark mark) Hm0)
      as [_ Hlt]. specialize (Hlt (other_mark_nonempty mark)).
    destruct (exhaustive_minimax_range mark (other_mark mark) Hmark
                (other_mark_nonempty mark) n
                (place (place b move mark) m0 (other_mark mark)) (0 + 1) true)
      as [z [Ez Hz]]; [lia | lia |].
    exists z. split; [exact Ez | lia].
  - left. split; [reflexivity|]. intros E'. apply map_eq_nil in E'.
    contradiction.
  - rewrite Ez in Hbest. unfold sle in Hbest. cbn in Hbest.
    apply Z.leb_le in Hbest. lia.
Qed.

Lemma Hard_takes_immediate_win_witness :
  exists move,
    find_best_move HardAIStrategy "O"
      (mkWorld (("X", "X", ""), ("O", "O", ""), ("X", "", "")) rng0)
    = (Ok (Some move),
       mkWorld (("X", "X", ""), ("O", "O", ""), ("X", "", "")) rng0)
    /\ In move
         (get_empty_cells (("X", "X", ""), ("O", "O", ""), ("X", "", "")))
    /\ check_win
         (place (("X", "X", ""), ("O", "O", ""), ("X", "", "")) move "O") "O"
       = true.
Proof.
  apply (Hard_takes_immediate_win "O"
           (mkWorld (("X", "X", ""), ("O", "O", ""), ("X", "", "")) rng0)
           (mkMove 1 2)).
  - discriminate.
  - cbn. tauto.
  - reflexivity.
Defined.
(** * Further properties of the opponent *)

Lemma ascii_lower_idempotent c : ascii_lower (ascii_lower c) = ascii_lower c.
Proof.
  destruct c as [[] [] [] [] [] [] [] []]; reflexivity.
Qed.

Lemma str_lower_idempotent s : str_lower (str_lower s) = str_lower s.
Proof.
  induction s as [|c s IH]; [reflexivity|].
  cbn [str_lower]. now rewrite ascii_lower_idempotent, IH.
Qed.

(** X15. [create_strategy] reads the difficulty without regard to case: a
    difficulty and its lower-case form give the same answer; the strategy
    returned is the one whose lower-case name was given; and every other
    string is rejected with the invalid-difficulty error, the only error the
    factory raises. *)
Theorem create_strategy_ignores_case (difficulty : string) :
  create_strategy (str_lower difficulty) = create_strategy difficulty
  /\ (create_strategy difficulty = Ok EasyAIStrategy <->
      str_lower difficulty = "easy")
  /\ (create_strategy difficulty = Ok MediumAIStrategy <->
      str_lower difficulty = "medium")
  /\ (create_strategy difficulty = Ok HardAIStrategy <->
      str_lower difficulty = "hard")
  /\ (create_strategy difficulty = Raise InvalidDifficulty <->
      ~ In (str_lower difficulty) ["easy"; "medium"; "hard"])
  /\ (forall e, create_strategy difficulty = Raise e -> e = InvalidDifficulty).
Proof.
  unfold create_strategy. rewrite str_lower_idempotent.
  split; [reflexivity|].
  destruct (str_lower difficulty =? "easy")%string eqn:E1;
    [apply String.eqb_eq in E1; rewrite E1; cbn;
     repeat split; intros; try congruence; try discriminate; intuition
       congruence|].
  destruct (str_lower difficulty =? "medium")%string eqn:E2;
    [apply String.eqb_eq in E2; rewrite E2; cbn;
     repeat split; intros; try congruence; try discriminate; intuition
       congruence|].
  destruct (str_lower difficulty =? "hard")%string eqn:E3;
    [apply String.eqb_eq in E3; rewrite E3; cbn;
     repeat split; intros; try congruence; try discriminate; intuition
       congruence|].
  apply String.eqb_neq in E1, E2, E3.
  repeat split; intros; try congruence; try discriminate.
  cbn. intuition congruence.
Qed.

Lemma Qltb_true a b : Qltb a b = true <-> (a < b)%Q.
Proof.
  unfold Qltb. rewrite negb_true_iff. split.
  - intros H. apply Qnot_le_lt. intros Hle. apply Qle_bool_iff in Hle.
    congruence.
  - intros H. destruct (Qle_bool b a) eqn:E; [|reflexivity].
    apply Qle_bool_iff in E. exfalso. exact (Qlt_not_le _ _ H E).
Qed.

Lemma Qltb_false a b : Qltb a b = false <-> (b <= a)%Q.
Proof.
  unfold Qltb. rewrite negb_false_iff. apply Qle_bool_iff.
Qed.

(** X16. [AIPersonality.__init__] clamps the randomness factor into
    [0, 1]: a factor inside the interval is kept, a negative one becomes 0
    and one above 1 becomes 1. *)
Theorem new_AIPersonality_clamps (q : Q) :
  let f := randomness_factor (new_AIPersonality q) in
  (0 <= f)%Q /\ (f <= 1)%Q
  /\ ((0 <= q)%Q -> (q <= 1)%Q -> (f == q)%Q)
  /\ ((q < 0)%Q -> (f == 0)%Q)
  /\ ((1 < q)%Q -> (f == 1)%Q).
Proof.
  cbn [new_AIPersonality randomness_factor]. unfold py_max, py_min.
  destruct (Qltb q 1) eqn:E1.
  - apply Qltb_true in E1. destruct (Qltb 0 q) eqn:E2.
    + apply Qltb_true in E2.
      split; [now apply Qlt_le_weak|].
      split; [now apply Qlt_le_weak|].
      split; [intros _ _; apply Qeq_refl|].
      split; intros H; exfalso.
      * apply (Qlt_irrefl 0). now apply (Qlt_trans _ q).
      * apply (Qlt_irrefl 1). now apply (Qlt_trans _ q).
    + apply Qltb_false in E2.
      split; [apply Qle_refl|].
      split; [discriminate|].
      split; [intros H _; now apply Qle_antisym|].
      split; [intros _; apply Qeq_refl|].
      intros H. exfalso. apply (Qlt_irrefl 1). now apply (Qlt_trans _ q).
  - apply Qltb_false in E1.
    split; [discriminate|].
    split; [apply Qle_refl|].
    split; [intros _ H; now apply Qle_antisym|].
    split; [|intros _; apply Qeq_refl].
    intros H. exfalso. apply (Qlt_irrefl 0).
    apply (Qlt_le_trans _ 1); [reflexivity|].
    apply (Qle_trans _ q); [exact E1 | now apply Qlt_le_weak].
Qed.
(** ** The opponent's move is always one the board accepts *)

Lemma find_best_move_legal strat mark w :
  w_board (snd (find_best_move strat mark w)) = w_board w
  /\ (forall m, fst (find_best_move strat mark w) = Ok (Some m) ->
        In m (get_empty_cells (w_board w)))
  /\ (fst (find_best_move strat mark w) = Ok None ->
      get_empty_cells (w_board w) = []).
Proof.
  split; [apply frame_find_best_move|].
  destruct strat.
  - destruct (Easy_find_best_move_cases mark w) as [H0 H1].
    destruct (get_empty_cells (w_board w)) as [|c cs] eqn:E.
    + rewrite (H0 eq_refl). cbn [fst]. split; [discriminate | reflexivity].
    + destruct H1 as [move [-> Hin]]; [discriminate|]. cbn [fst].
      split; [|discriminate]. intros m Hm. injection Hm as <-. exact Hin.
  - rewrite Medium_find_best_move_run. cbn [fst].
    destruct (find _ _) as [m0|] eqn:E0; cbv iota.
    + split; [|discriminate]. intros m Hm. injection Hm as <-.
      now apply find_some in E0.
    + destruct (find (fun m => check_win (place (w_board w) m
                                            (other_mark mark))
                                 (other_mark mark)) _) as [m1|] eqn:E1.
      * split; [|discriminate]. intros m Hm. injection Hm as <-.
        now apply find_some in E1.
      * split; discriminate.
  - destruct (Hard_find_best_move_cases mark w) as [H0 H1].
    destruct (get_empty_cells (w_board w)) as [|c cs] eqn:E.
    + rewrite (H0 eq_refl). cbn [fst]. split; [discriminate | reflexivity].
    + destruct H1 as [move [-> Hin]]; [discriminate|]. cbn [fst].
      split; [|discriminate]. intros m Hm. injection Hm as <-. exact Hin.
Qed.

Lemma AIOpponent_make_move_run o w :
  AIOpponent_make_move o w
  = match find_best_move (strategy o) (opp_ai_mark o) w with
    | (Raise e, w1) => (Raise e, w1)
    | (Ok suggested, w1) =>
        let w2 := mkWorld (w_board w1) (rng_next (w_rng w1)) in
        if Qltb (rnd_floats (w_rng w1) (rnd_pos (w_rng w1)))
             (randomness_factor (personality o))
        then adjust_move (personality o) suggested w2
        else (Ok suggested, w2)
    end.
Proof.
  unfold AIOpponent_make_move. unfold bind at 1.
  destruct (find_best_move (strategy o) (opp_ai_mark o) w) as [[s|e] w1];
    [|reflexivity].
  unfold bind at 1, should_make_suboptimal_move, bind, random_random, ret.
  now destruct (Qltb _ _).
Qed.

Lemma AIOpponent_make_move_cases o w :
  w_board (snd (AIOpponent_make_move o w)) = w_board w
  /\ (forall m, fst (AIOpponent_make_move o w) = Ok (Some m) ->
        In m (get_empty_cells (w_board w)))
  /\ (fst (AIOpponent_make_move o w) = Ok None ->
      get_empty_cells (w_board w) = []).
Proof.
  split; [apply frame_AIOpponent_make_move|].
  rewrite AIOpponent_make_move_run.
  destruct (find_best_move_legal (strategy o) (opp_ai_mark o) w)
    as [Hb [Hsome Hnone]].
  destruct (find_best_move (strategy o) (opp_ai_mark o) w) as [[s|e] w1];
    cbn [fst snd] in *; [|split; discriminate].
  cbv zeta. destruct (Qltb _ _); [|exact (conj Hsome Hnone)].
  set (w2 := mkWorld (w_board w1) (rng_next (w_rng w1))).
  destruct (adjust_move_cases (personality o) s w2) as [H1 H2].
  change (w_board w2) with (w_board w1) in H1, H2. rewrite Hb in H1, H2.
  destruct (Nat.le_gt_cases (List.length (get_empty_cells (w_board w))) 1)
    as [Hle|Hgt].
  - rewrite (H1 Hle). exact (conj Hsome Hnone).
  - destruct (H2 Hgt) as [move [w' [-> [_ [Hin _]]]]]. cbn [fst].
    split; [|discriminate]. intros m Hm. injection Hm as <-. exact Hin.
Qed.

(** X19. Whatever the strategy, the personality and the draws,
    [AIOpponent.make_move] hands the board back exactly as it received it
    (also when it raises); a move it returns is one of the board's empty
    cells, so the board accepts it; and it returns [None] only on a board
    without empty cells. *)
Theorem AIOpponent_make_move_is_legal (o : AIOpponent) (w : World) :
  w_board (snd (AIOpponent_make_move o w)) = w_board w
  /\ (forall m, fst (AIOpponent_make_move o w) = Ok (Some m) ->
        In m (get_empty_cells (w_board w))
        /\ exists b', make_move (w_board w) m (opp_ai_mark o) = Ok b')
  /\ (fst (AIOpponent_make_move o w) = Ok None ->
      get_empty_cells (w_board w) = []).
Proof.
  destruct (AIOpponent_make_move_cases o w) as [H1 [H2 H3]].
  split; [exact H1|]. split; [|exact H3].
  intros m Hm. specialize (H2 m Hm). split; [exact H2|].
  apply In_get_empty_cells in H2. destruct H2 as [Hb He].
  eexists. exact (make_move_ok _ _ _ Hb He).
Qed.

(** X20. A randomness factor of zero or less switches the perturbation off:
    after [set_personality(q)] with [q <= 0], whenever the strategy returns
    a suggestion and the draw of [random()] is not negative,
    [AIOpponent.make_move] returns that suggestion, having consumed that one
    draw. *)
Theorem set_personality_zero_disables_perturbation
  (q : Q) (o : AIOpponent) (w w1 : World) (suggested : option Move) :
  (q <= 0)%Q ->
  find_best_move (strategy o) (opp_ai_mark o) w = (Ok suggested, w1) ->
  (0 <= rnd_floats (w_rng w1) (rnd_pos (w_rng w1)))%Q ->
  AIOpponent_make_move (snd (set_personality q o)) w
  = (Ok suggested, mkWorld (w_board w1) (rng_next (w_rng w1))).
Proof.
  intros Hq Hfind Hu. rewrite AIOpponent_make_move_run.
  cbn [set_personality snd strategy opp_ai_mark personality].
  rewrite Hfind. cbv zeta.
  assert (E : Qltb (rnd_floats (w_rng w1) (rnd_pos (w_rng w1)))
                (randomness_factor (new_AIPersonality q)) = false).
  { apply Qltb_false. apply (Qle_trans _ 0); [|exact Hu].
    cbn [new_AIPersonality randomness_factor]. unfold py_max, py_min.
    destruct (Qltb q 1) eqn:E1.
    - destruct (Qltb 0 q) eqn:E2; [|apply Qle_refl].
      apply Qltb_true in E2. exfalso. exact (Qlt_not_le _ _ E2 Hq).
    - apply Qltb_false in E1. exfalso.
      apply (Qlt_irrefl 0). apply (Qlt_le_trans _ 1); [reflexivity|].
      now apply (Qle_trans _ q). }
  now rewrite E.
Qed.

Lemma set_personality_zero_disables_perturbation_witness :
  AIOpponent_make_move
    (snd (set_personality 0
            (mkAIOpponent "hard" "X" "O" HardAIStrategy
               (new_AIPersonality (1 # 10)))))
    (mkWorld (("X", "X", ""), ("O", "O", ""), ("X", "", "")) rng0)
  = (Ok (Some (mkMove 1 2)),
     mkWorld (("X", "X", ""), ("O", "O", ""), ("X", "", "")) (rng_next rng0)).
Proof.
  apply (set_personality_zero_disables_perturbation 0
           (mkAIOpponent "hard" "X" "O" HardAIStrategy
              (new_AIPersonality (1 # 10)))
           (mkWorld (("X", "X", ""), ("O", "O", ""), ("X", "", "")) rng0)
           (mkWorld (("X", "X", ""), ("O", "O", ""), ("X", "", "")) rng0)).
  - discriminate.
  - vm_compute. reflexivity.
  - discriminate.
Defined.
(** ** The engine invariant *)

Lemma is_game_over_false b :
  is_game_over b = false <->
  check_win b "X" = false /\ check_win b "O" = false /\ check_draw b = false.
Proof.
  unfold is_game_over. rewrite !orb_false_iff. tauto.
Qed.

Lemma apply_move_frame mark move b e :
  player_mark (apply_move mark move b e) = player_mark e
  /\ ai_mark (apply_move mark move b e) = ai_mark e
  /\ ai_opponent (apply_move mark move b e) = ai_opponent e
  /\ board (apply_move mark move b e) = Some (place b move mark).
Proof.
  unfold apply_move, update_engine.
  destruct (check_win _ _); [destruct (py_eqb _ _)|destruct (check_draw _)];
    repeat split.
Qed.

Lemma apply_move_status mark move b e :
  game_status e = in_progress ->
  let b' := place b move mark in
  (check_win b' mark || check_draw b' = true ->
   terminal (game_status (apply_move mark move b e)) = true
   /\ current_player (apply_move mark move b e) = current_player e)
  /\ (check_win b' mark || check_draw b' = false ->
      game_status (apply_move mark move b e) = in_progress
      /\ current_player (apply_move mark move b e)
         = Some (if py_eqb (current_player e) (Some "X") then "O" else "X")).
Proof.
  intros Hst b'. unfold apply_move, update_engine. fold b'.
  destruct (check_win b' mark); cbn [orb].
  - split; [|discriminate]. intros _. destruct (py_eqb _ _); now split.
  - destruct (check_draw b'); (split; [|]); try discriminate; intros _;
      cbn; now split.
Qed.

Lemma consistent_placement e e' :
  consistent e -> placement e e' -> consistent e'.
Proof.
  intros [_ [Hmarks Hin]] Hp.
  destruct Hp as [e b move mark Hst Hb Hcur Hmove].
  destruct (Hin Hst) as [[b0 [o [Hb0 [Hover [Ho Hc]]]]] Hpm].
  assert (b0 = b) by congruence. subst b0.
  apply is_game_over_false in Hover. destruct Hover as [HX [HO _]].
  destruct (no_double_win_place b move mark Hmove HX HO) as [Hnd Hnone].
  destruct (apply_move_frame mark move b e) as [Fp [Fa [Fo Fb]]].
  destruct (apply_move_status mark move b e Hst) as [St Sp].
  split; [|split].
  - intros b1 E. rewrite Fb in E. injection E as <-. exact Hnd.
  - unfold marks_set. now rewrite Fp, Fa.
  - intros Hst'.
    destruct (check_win (place b move mark) mark
              || check_draw (place b move mark)) eqn:E.
    + destruct (St eq_refl) as [Ht _]. rewrite Hst' in Ht. discriminate.
    + destruct (Sp eq_refl) as [_ Hcur'].
      apply orb_false_iff in E. destruct E as [Ew Ed].
      split; [|now rewrite Fp].
      exists (place b move mark), o. split; [exact Fb|].
      split; [apply is_game_over_false; now destruct (Hnone Ew)|].
      split; [now rewrite Fo|].
      rewrite Hcur'. destruct (py_eqb _ _); [now right | now left].
Qed.

Lemma consistent_placements e e' :
  placements e e' -> consistent e -> consistent e'.
Proof.
  induction 1 as [|a b c Hab Hbc IH]; intros H; [exact H|].
  apply IH. now apply (consistent_placement a b).
Qed.

Lemma valid_mark pmark :
  existsb (String.eqb pmark) ["X"; "O"] = true <-> pmark = "X" \/ pmark = "O".
Proof.
  cbn [existsb]. rewrite !orb_true_iff, !String.eqb_eq. intuition discriminate.
Qed.

Lemma consistent_started pmark o :
  pmark = "X" \/ pmark = "O" -> consistent (started_engine pmark o).
Proof.
  intros Hpm. split; [|split].
  - cbn. intros b E. injection E as <-. reflexivity.
  - right. exists pmark. now repeat split.
  - intros _. split; [|discriminate].
    exists new_Board, o. repeat split. now left.
Qed.

Lemma consistent_run_call c s :
  consistent (engine s) -> consistent (engine (run_call c s)).
Proof.
  intros Hs. destruct c as [pmark d|x y|d|q]; cbn [run_call].
  - destruct (start_new_game_run pmark d s) as [H1 [H2 H3]].
    destruct (existsb (String.eqb pmark) ["X"; "O"]) eqn:Hm.
    + apply valid_mark in Hm.
      destruct (new_AIOpponent d pmark) as [o|e] eqn:Ho.
      * apply (consistent_placements _ _ (H3 eq_refl o eq_refl)).
        now apply consistent_started.
      * rewrite (H2 eq_refl e eq_refl). cbn [snd engine].
        destruct Hs as [_ [_ Hin]]. split; [|split].
        -- cbn. intros b E. injection E as <-. reflexivity.
        -- right. exists pmark. now repeat split.
        -- cbn. intros Hst.
           destruct (Hin Hst) as [[b [o [_ [_ [Ho' Hc]]]]] _].
           split; [|discriminate].
           exists new_Board, o. now repeat split.
    + now rewrite (H1 eq_refl).
  - exact (consistent_placements _ _ (player_move_placements x y s) Hs).
  - destruct (change_difficulty_engine d s) as [->|[o [o' [_ [-> _]]]]];
      [exact Hs|].
    destruct Hs as [H1 [H2 H3]]. split; [exact H1|]. split; [exact H2|].
    cbn. intros Hst. destruct (H3 Hst) as [[b [o1 [Hb [Hov [_ Hc]]]]] Hpm].
    split; [|exact Hpm]. exists b, o'. now repeat split.
  - destruct (set_ai_personality_engine q s) as [->|[o' ->]]; [exact Hs|].
    destruct Hs as [H1 [H2 H3]]. split; [exact H1|]. split; [exact H2|].
    cbn. intros Hst. destruct (H3 Hst) as [[b [o1 [Hb [Hov [_ Hc]]]]] Hpm].
    split; [|exact Hpm]. exists b, o'. now repeat split.
Qed.

Lemma reachable_consistent e : reachable e -> consistent e.
Proof.
  induction 1 as [|c s Hr IH|e e' Hr IH Hp].
  - split; [|split]; cbn; [discriminate | now left | discriminate].
  - now apply consistent_run_call.
  - now apply (consistent_placement e e').
Qed.

(** X26. On every board the engine can be brought to, from a new engine by
    any sequence of calls (accepted or rejected) and accepted moves of the
    player and the opponent, [check_win('X')] and [check_win('O')] are not
    both true. *)
Theorem reachable_board_one_winner (e : GameEngine) (b : Board) :
  reachable e ->
  board e = Some b ->
  check_win b "X" && check_win b "O" = false.
Proof.
  intros Hr Hb. exact (proj1 (reachable_consistent e Hr) b Hb).
Qed.

Lemma reachable_board_one_winner_witness :
  let s := run_calls [Call_start_new_game "X" "easy"; Call_player_move 1 1]
             (mkSession new_GameEngine rng0) in
  board (engine s) = Some (("", "O", ""), ("", "X", ""), ("", "", ""))
  /\ check_win (("", "O", ""), ("", "X", ""), ("", "", "")) "X"
     && check_win (("", "O", ""), ("", "X", ""), ("", "", "")) "O" = false.
Proof.
  intros s. split; [reflexivity|].
  apply (reachable_board_one_winner (engine s)); [|reflexivity].
  unfold s, run_calls. cbn [fold_left].
  apply reachable_call, reachable_call. cbn [engine]. apply reachable_new.
Defined.


(** ** The opponent's turn inside the engine *)

(** [_process_ai_move] when it is the opponent's turn in a game in
    progress: the opponent is asked once; a move it returns is placed and the
    status updated; when it raises or offers nothing the engine stays as it
    is.  The generator advances by the opponent's draws. *)
Lemma _process_ai_move_run s b o mark :
  game_status (engine s) = in_progress ->
  board (engine s) = Some b ->
  ai_opponent (engine s) = Some o ->
  ai_mark (engine s) = Some mark ->
  current_player (engine s) = Some mark ->
  _process_ai_move s
  = match AIOpponent_make_move o (mkWorld b (rng s)) with
    | (Raise e, w) => (Raise e, mkSession (engine s) (w_rng w))
    | (Ok None, w) => (Ok None, mkSession (engine s) (w_rng w))
    | (Ok (Some m), w) =>
        (Ok (Some m), mkSession (apply_move mark m b (engine s)) (w_rng w))
    end.
Proof.
  intros Hst Hb Ho Hmark Hcur.
  unfold _process_ai_move. rewrite bind_self, Hst, Hcur, Hmark, Ho.
  cbn [GameStatus_eqb negb py_eqb orb]. rewrite String.eqb_refl.
  cbn [negb deref]. rewrite bind_ret.
  unfold bind at 1, on_own_board at 1. rewrite Hb.
  destruct (AIOpponent_make_move_cases o (mkWorld b (rng s)))
    as [Hframe [Hsome _]].
  destruct (AIOpponent_make_move o (mkWorld b (rng s))) as [r w].
  cbn [fst snd w_board] in *. rewrite Hframe, (set_board_same _ _ Hb).
  destruct r as [[m|]|e]; [|reflexivity..].
  rewrite bind_ret.
  destruct (place_and_update m mark (mkSession (engine s) (w_rng w))
              (ret (Some m)) Hst Hcur) as [Hrun _].
  rewrite Hrun. cbn [engine rng]. rewrite Hb.
  specialize (Hsome m eq_refl). apply In_get_empty_cells in Hsome.
  destruct Hsome as [Hbd He]. now rewrite (make_move_ok b m mark Hbd He).
Qed.

(** The dictionary [start_new_game] and [player_move] build at the end. *)
Lemma snapshot_run {A} (f : GameEngine -> Board -> A) s b :
  board (engine s) = Some b ->
  (e <- self ;; b <- deref (board e) ;; ret (f e b)) s
  = (Ok (f (engine s) b), s).
Proof. intros Hb. rewrite bind_self, Hb. reflexivity. Qed.

Lemma other_mark_involutive pm :
  pm = "X" \/ pm = "O" -> other_mark (other_mark pm) = pm.
Proof. now intros [-> | ->]. Qed.

Lemma flip_current pm :
  (if py_eqb (Some pm) (Some "X") then "O" else "X") = other_mark pm.
Proof. reflexivity. Qed.

Lemma opening_move_continues m o pmark :
  In m (get_empty_cells new_Board) ->
  apply_move "X" m new_Board (started_engine pmark o)
  = mkGameEngine (Some (place new_Board m "X")) (Some "O") (Some o)
      in_progress (Some pmark) (Some (other_mark pmark)).
Proof.
  cbn. intros H.
  repeat (destruct H as [<-|H]; [reflexivity|]). destruct H.
Qed.


(** X22. A call of [player_move(x, y)] that is rejected with
    [GameNotInProgress], [WrongTurn], [OutOfBounds] or [CellOccupied] leaves
    the engine and the generator exactly as they were.  The status is checked
    first, the turn second, the cell last: no coordinates are looked at
    unless a game is in progress and it is the player's turn. *)
Theorem player_move_rejections_change_nothing (x y : Z) (s : Session) :
  (game_status (engine s) <> in_progress ->
   player_move x y s = (Raise GameNotInProgress, s))
  /\ (game_status (engine s) = in_progress ->
      current_player (engine s) <> player_mark (engine s) ->
      player_move x y s = (Raise WrongTurn, s))
  /\ (game_status (engine s) = in_progress ->
      current_player (engine s) = player_mark (engine s) ->
      forall mark b,
        player_mark (engine s) = Some mark ->
        board (engine s) = Some b ->
        (in_bounds x y = false ->
         player_move x y s = (Raise OutOfBounds, s))
        /\ (in_bounds x y = true -> grid_get b x y <> "" ->
            player_move x y s = (Raise CellOccupied, s))).
Proof.
  destruct (player_move_rejected x y s) as [H1 [H2 H3]].
  split; [exact H1|]. split; [exact H2|].
  intros Hst Hcur mark b Hpm Hb. split.
  - intros Hout. apply (H3 Hst Hcur mark b _ Hpm Hb).
    unfold make_move. cbn [mx my]. now rewrite Hout.
  - intros Hin Hocc. apply (H3 Hst Hcur mark b _ Hpm Hb).
    unfold make_move. cbn [mx my]. rewrite Hin. cbn [negb].
    apply String.eqb_neq in Hocc. now rewrite Hocc.
Qed.

(** X23. [start_new_game] checks the player mark before it touches the
    engine: a mark other than 'X' and 'O' is rejected with [InvalidMark] and
    nothing changes.  The difficulty is checked only after the board and the
    marks were assigned: with a valid mark and a rejected difficulty the call
    raises [InvalidDifficulty] and leaves a new empty board and the new marks
    behind, next to the old status, current player and opponent. *)
Theorem start_new_game_rejections (pmark difficulty : string) (s : Session) :
  (pmark <> "X" -> pmark <> "O" ->
   start_new_game pmark difficulty s = (Raise InvalidMark, s))
  /\ (pmark = "X" \/ pmark = "O" ->
      ~ In (str_lower difficulty) ["easy"; "medium"; "hard"] ->
      exists s',
        start_new_game pmark difficulty s = (Raise InvalidDifficulty, s')
        /\ rng s' = rng s
        /\ board (engine s') = Some new_Board
        /\ player_mark (engine s') = Some pmark
        /\ ai_mark (engine s') = Some (other_mark pmark)
        /\ game_status (engine s') = game_status (engine s)
        /\ current_player (engine s') = current_player (engine s)
        /\ ai_opponent (engine s') = ai_opponent (engine s)).
Proof.
  destruct (start_new_game_run pmark difficulty s) as [H1 [H2 _]]. split.
  - intros HX HO. apply H1.
    destruct (existsb (String.eqb pmark) ["X"; "O"]) eqn:E; [|reflexivity].
    apply valid_mark in E. tauto.
  - intros Hv Hd. apply valid_mark in Hv.
    assert (E : new_AIOpponent difficulty pmark = Raise InvalidDifficulty).
    { unfold new_AIOpponent, create_strategy. cbn [In] in Hd.
      destruct (str_lower difficulty =? "easy")%string eqn:E1;
        [apply String.eqb_eq in E1; intuition congruence|].
      destruct (str_lower difficulty =? "medium")%string eqn:E2;
        [apply String.eqb_eq in E2; intuition congruence|].
      destruct (str_lower difficulty =? "hard")%string eqn:E3;
        [apply String.eqb_eq in E3; intuition congruence|].
      reflexivity. }
    eexists. split; [exact (H2 Hv _ E)|]. repeat split.
Qed.

(** X28. [change_difficulty] and [set_ai_personality] answer [False]
    and change nothing while the engine has no opponent.  With an opponent
    they touch the opponent only (board, status, marks, current player and
    generator stay): [set_ai_personality] replaces its personality by one
    with the clamped factor and answers [True]; [change_difficulty] answers
    [True] and installs the strategy of an accepted difficulty, and for a
    rejected one raises [InvalidDifficulty] after the opponent's
    [difficulty_level] was already overwritten, its strategy staying the old
    one. *)
Theorem opponent_settings_touch_the_opponent_only
  (difficulty : string) (q : Q) (s : Session) :
  (ai_opponent (engine s) = None ->
   change_difficulty difficulty s = (Ok false, s)
   /\ set_ai_personality q s = (Ok false, s))
  /\ (forall o, ai_opponent (engine s) = Some o ->
        let with_opponent o' :=
          mkSession (set_ai_opponent (Some o') (engine s)) (rng s) in
        set_ai_personality q s
        = (Ok true,
           with_opponent
             (mkAIOpponent (difficulty_level o) (opp_player_mark o)
                (opp_ai_mark o) (strategy o) (new_AIPersonality q)))
        /\ (forall strat, create_strategy difficulty = Ok strat ->
              change_difficulty difficulty s
              = (Ok true,
                 with_opponent
                   (mkAIOpponent difficulty (opp_player_mark o)
                      (opp_ai_mark o) strat (personality o))))
        /\ (forall e, create_strategy difficulty = Raise e ->
              change_difficulty difficulty s
              = (Raise InvalidDifficulty,
                 with_opponent
                   (mkAIOpponent difficulty (opp_player_mark o)
                      (opp_ai_mark o) (strategy o) (personality o))))).
Proof.
  unfold change_difficulty, set_ai_personality. rewrite !bind_self. split.
  - intros ->. split; reflexivity.
  - intros o ->. cbv zeta.
    unfold bind, on_opponent, set_personality, set_difficulty, ret.
    split; [reflexivity|]. split.
    + intros strat ->. reflexivity.
    + intros e He. rewrite He.
      unfold create_strategy in He.
      repeat (destruct (_ =? _)%string; [discriminate|]).
      now injection He as <-.
Qed.
(** ** What an accepted move does *)

Lemma apply_move_outcome mark move b e pm :
  game_status e = in_progress ->
  player_mark e = Some pm ->
  mark = "X" \/ mark = "O" ->
  current_player e = Some mark ->
  In move (get_empty_cells b) ->
  check_win b "X" = false -> check_win b "O" = false ->
  outcome_of (apply_move mark move b e) (place b move mark) mark pm.
Proof.
  intros Hst Hpm Hmark Hcur Hin HX HO.
  destruct (no_double_win_place b move mark Hin HX HO) as [_ Hnone].
  unfold outcome_of, apply_move, update_engine.
  set (b' := place b move mark) in *.
  cbn [set_board player_mark current_player].
  rewrite Hpm, Hcur. cbn [py_eqb]. fold (other_mark mark).
  destruct (check_win b' mark) eqn:Ew.
  - destruct (mark =? pm)%string; (split; [reflexivity|]);
      right; left; cbn; now repeat split.
  - destruct (Hnone eq_refl) as [HX' HO'].
    destruct (check_draw b') eqn:Ed; (split; [reflexivity|]).
    + right; right. cbn. now repeat split.
    + left. cbn. repeat split; try assumption.
      apply is_game_over_false. now repeat split.
Qed.

Lemma grid_get_placed b move mark :
  in_bounds (mx move) (my move) = true ->
  grid_get (place b move mark) (mx move) (my move) = mark.
Proof.
  intros Hb. rewrite (grid_get_place b move mark _ _ Hb).
  - destruct move as [x y]. cbn [mx my]. now rewrite Move_eqb_refl.
  - apply in_bounds_cases in Hb. cbn. intuition.
  - apply in_bounds_cases in Hb. cbn. intuition.
Qed.

Lemma grid_get_place_other b move mark m' :
  In move (get_empty_cells b) ->
  in_bounds (mx m') (my m') = true ->
  grid_get b (mx m') (my m') <> "" ->
  grid_get (place b move mark) (mx m') (my m') = grid_get b (mx m') (my m').
Proof.
  intros Hin Hb' Hne. apply In_get_empty_cells in Hin.
  destruct Hin as [Hb He].
  rewrite (grid_get_place b move mark _ _ Hb).
  - destruct (Move_eqb _ _) eqn:E; [|reflexivity].
    apply Move_eqb_eq in E. subst move. cbn [mx my] in He. contradiction.
  - apply in_bounds_cases in Hb'. cbn. intuition.
  - apply in_bounds_cases in Hb'. cbn. intuition.
Qed.

Lemma valid_mark_nonempty pm : pm = "X" \/ pm = "O" -> pm <> "".
Proof. intros [-> | ->]; discriminate. Qed.

Lemma other_mark_valid pm :
  pm = "X" \/ pm = "O" -> other_mark pm = "X" \/ other_mark pm = "O".
Proof. intros [-> | ->]; [now right | now left]. Qed.

Lemma other_mark_eqb pm :
  pm = "X" \/ pm = "O" -> (other_mark pm =? pm)%string = false.
Proof. now intros [-> | ->]. Qed.



(** ** Games against the Medium strategy *)

Lemma new_AIOpponent_medium d pmark :
  str_lower d = "medium" ->
  new_AIOpponent d pmark
  = Ok (mkAIOpponent d pmark (other_mark pmark) MediumAIStrategy
          (new_AIPersonality (1 # 10))).
Proof.
  intros H. unfold new_AIOpponent, create_strategy. now rewrite H.
Qed.

Lemma start_new_game_setup pmark d s o :
  pmark = "X" \/ pmark = "O" ->
  new_AIOpponent d pmark = Ok o ->
  start_new_game pmark d s
  = (ai_move <- (if (other_mark pmark =? "X")%string
                 then _process_ai_move else ret None) ;;
     e <- self ;;
     b <- deref (board e) ;;
     ret (mkSnapshot b (current_player e) (player_mark e) (ai_mark e)
            (game_status e) None ai_move))
      (mkSession (started_engine pmark o) (rng s)).
Proof.
  intros Hv Ho. unfold start_new_game.
  rewrite (proj2 (valid_mark pmark) Hv). cbn [negb].
  rewrite !bind_assign. cbn [engine rng]. rewrite Ho. cbn [lift_result].
  rewrite bind_ret, !bind_assign. cbn [engine rng]. rewrite bind_self.
  reflexivity.
Qed.

(** X30. No game against the Medium strategy gets past the opponent's first
    move.  With the player on O, [start_new_game] itself raises the
    [NameError] of [MediumAIStrategy.find_best_move]; with the player on X it
    returns, and the player's first move on any cell raises it after the
    player's X was placed.  Either way the engine is left [in_progress] with
    the opponent to move, and every later [player_move] is rejected with
    [WrongTurn]. *)
Theorem medium_games_get_stuck (d : string) (s : Session) (x y : Z) :
  str_lower d = "medium" ->
  (exists s1,
     start_new_game "O" d s = (Raise (NameError "Move"), s1)
     /\ game_status (engine s1) = in_progress
     /\ board (engine s1) = Some new_Board
     /\ forall x' y', player_move x' y' s1 = (Raise WrongTurn, s1))
  /\ (in_bounds x y = true ->
      exists snap s1 s2,
        start_new_game "X" d s = (Ok snap, s1)
        /\ player_move x y s1 = (Raise (NameError "Move"), s2)
        /\ game_status (engine s2) = in_progress
        /\ board (engine s2) = Some (place new_Board (mkMove x y) "X")
        /\ forall x' y', player_move x' y' s2 = (Raise WrongTurn, s2)).
Proof.
  intros Hd. split.
  - rewrite (start_new_game_setup "O" d s _ (or_intror eq_refl)
               (new_AIOpponent_medium d "O" Hd)).
    eexists. split; [vm_compute; reflexivity|].
    split; [reflexivity|]. split; [reflexivity|].
    intros x' y'.
    apply (proj1 (proj2 (player_move_rejected x' y' _)));
      [reflexivity | discriminate].
  - intros Hb.
    rewrite (start_new_game_setup "X" d s _ (or_introl eq_refl)
               (new_AIOpponent_medium d "X" Hd)).
    bounds_cases Hb;
      eexists; eexists; eexists;
      (split; [vm_compute; reflexivity|]);
      (split; [vm_compute; reflexivity|]);
      (split; [reflexivity|]); (split; [reflexivity|]);
      intros x' y';
      apply (proj1 (proj2 (player_move_rejected x' y' _)));
      (reflexivity || discriminate).
Qed.

Lemma medium_games_get_stuck_witness :
  exists s1,
    start_new_game "O" "Medium" (mkSession new_GameEngine rng0)
    = (Raise (NameError "Move"), s1)
    /\ game_status (engine s1) = in_progress
    /\ board (engine s1) = Some new_Board
    /\ forall x' y', player_move x' y' s1 = (Raise WrongTurn, s1).
Proof.
  exact (proj1 (medium_games_get_stuck "Medium"
                  (mkSession new_GameEngine rng0) 0 0 eq_refl)).
Defined.
(** * The JSON forms *)

Lemma length_3_inv {A} (l : list A) :
  List.length l = 3%nat -> exists a b c, l = [a; b; c].
Proof.
  destruct l as [|a [|b [|c [|d l]]]]; try discriminate. eauto.
Qed.

(** ** The default personality *)

Lemma placement_opponent e e' :
  placement e e' -> ai_opponent e' = ai_opponent e.
Proof.
  intros [e0 b move mark _ _ _ _].
  now destruct (apply_move_frame mark move b e0) as [_ [_ [Fo _]]].
Qed.

Lemma placements_opponent e e' :
  placements e e' -> ai_opponent e' = ai_opponent e.
Proof.
  induction 1 as [|a b c Hab Hbc IH]; [reflexivity|].
  rewrite IH. now apply placement_opponent.
Qed.

Lemma new_AIOpponent_personality d pmark o :
  new_AIOpponent d pmark = Ok o ->
  randomness_factor (personality o) = (1 # 10)%Q.
Proof.
  unfold new_AIOpponent. destruct (create_strategy d); [|discriminate].
  intros H. injection H as <-. reflexivity.
Qed.

Lemma default_randomness_run_call c s :
  keeps_personality c = true ->
  default_randomness (engine s) -> default_randomness (engine (run_call c s)).
Proof.
  intros Hc Hs. destruct c as [pmark d|x y|d|q]; cbn [run_call];
    [| | |discriminate Hc].
  - destruct (start_new_game_run pmark d s) as [H1 [H2 H3]].
    destruct (existsb (String.eqb pmark) ["X"; "O"]) eqn:Hm.
    + destruct (new_AIOpponent d pmark) as [o|e] eqn:Ho.
      * intros o' Ho'.
        rewrite (placements_opponent _ _ (H3 eq_refl o eq_refl)) in Ho'.
        injection Ho' as <-. exact (new_AIOpponent_personality _ _ _ Ho).
      * rewrite (H2 eq_refl e eq_refl). exact Hs.
    + now rewrite (H1 eq_refl).
  - intros o Ho.
    rewrite (placements_opponent _ _ (player_move_placements x y s)) in Ho.
    now apply Hs.
  - destruct (change_difficulty_engine d s) as [->|[o [o' [Ho [-> Hp]]]]];
      [exact Hs|].
    intros o1 Ho1. injection Ho1 as <-. rewrite Hp. now apply Hs.
Qed.

Lemma default_randomness_run_calls calls :
  forall s,
    forallb keeps_personality calls = true ->
    default_randomness (engine s) ->
    default_randomness (engine (run_calls calls s)).
Proof.
  unfold run_calls.
  induction calls as [|c calls IH]; intros s Hk Hs; [exact Hs|].
  cbn [forallb] in Hk. apply andb_true_iff in Hk. destruct Hk as [Hc Hk].
  cbn [fold_left]. apply IH; [exact Hk|].
  now apply default_randomness_run_call.
Qed.

(** X29. Until [set_ai_personality] is called, every opponent the engine
    holds has randomness factor 0.1, whatever the difficulty, the calls made
    ([start_new_game], [player_move], [change_difficulty], accepted or
    rejected) and the draws: no game starts with the perturbation off. *)
Theorem opponent_keeps_default_randomness
  (calls : list Call) (r : Rng) (o : AIOpponent) :
  forallb keeps_personality calls = true ->
  ai_opponent (engine (run_calls calls (mkSession new_GameEngine r))) = Some o ->
  randomness_factor (personality o) = (1 # 10)%Q
  /\ forall w,
       fst (should_make_suboptimal_move (personality o) w)
       = Ok (Qltb (rnd_floats (w_rng w) (rnd_pos (w_rng w))) (1 # 10)).
Proof.
  intros Hk Ho.
  assert (H : randomness_factor (personality o) = (1 # 10)%Q).
  { apply (default_randomness_run_calls calls
             (mkSession new_GameEngine r) Hk); [|exact Ho].
    intros o' Ho'. discriminate Ho'. }
  split; [exact H|]. intros w.
  unfold should_make_suboptimal_move, bind, random_random, ret. cbn [fst].
  now rewrite H.
Qed.

Lemma opponent_keeps_default_randomness_witness :
  exists o,
    ai_opponent
      (engine (run_calls [Call_start_new_game "X" "hard";
                          Call_player_move 0 0;
                          Call_change_difficulty "easy"]
                 (mkSession new_GameEngine rng0))) = Some o
    /\ randomness_factor (personality o) = (1 # 10)%Q.
Proof.
  destruct (ai_opponent
              (engine (run_calls [Call_start_new_game "X" "hard";
                                  Call_player_move 0 0;
                                  Call_change_difficulty "easy"]
                         (mkSession new_GameEngine rng0))))
    as [o|] eqn:E; [|vm_compute in E; discriminate E].
  exists o. split; [reflexivity|].
  exact (proj1 (opponent_keeps_default_randomness
                  [Call_start_new_game "X" "hard"; Call_player_move 0 0;
                   Call_change_difficulty "easy"] rng0 o eq_refl E)).
Defined.
